(** * The configuration loader of the C entity (entity/c/load_config.c)

    A shallow embedding of [get_key_value] and [load_config_t], with the C
    library calls the loader makes ([fopen], [feof], [fgets], [strtok],
    [strcmp], [printf], [memcpy], [fclose]) written out over an explicit
    program state, and the properties of the loader proved against it. *)

From Stdlib Require Import ZArith Ascii String.
From stdpp Require Import base decidable option list strings.

Local Open Scope Z_scope.

(** ** Characters and C strings *)

Definition NUL : ascii := "000"%char.
Definition NL : ascii := "010"%char.
Definition SP : ascii := " "%char.
Definition EQS : ascii := "="%char.

(** A string literal as the array of its characters (terminator left out). *)
Definition lit (s : string) : list ascii := list_ascii_of_string s.

Definition code (ch : ascii) : Z := Z.of_nat (nat_of_ascii ch).

(** [strcmp]: the difference of the first two characters that differ, as
    unsigned chars; the end of a string counts as the terminator (code 0).
    Both arguments are character sequences without a terminator inside. *)
Fixpoint strcmp (a b : list ascii) : Z :=
  match a, b with
  | [], [] => 0
  | [], y :: _ => 0 - code y
  | x :: _, [] => code x
  | x :: a', y :: b' => if bool_decide (x = y) then strcmp a' b' else code x - code y
  end.

(** The string at the head of [s]: the characters before the first
    terminator, or nothing when the array ends before one is met. *)
Fixpoint c_str (s : list ascii) : option (list ascii) :=
  match s with
  | [] => None
  | ch :: s' => if bool_decide (ch = NUL) then Some [] else cons ch <$> c_str s'
  end.

(** [strspn] and [strcspn] on the characters from a position on. *)
Fixpoint strspn (s delim : list ascii) : nat :=
  match s with
  | [] => 0%nat
  | ch :: s' =>
      if bool_decide (ch = NUL) then 0%nat
      else if bool_decide (ch ∈ delim) then S (strspn s' delim) else 0%nat
  end.

Fixpoint strcspn (s delim : list ascii) : nat :=
  match s with
  | [] => 0%nat
  | ch :: s' =>
      if bool_decide (ch = NUL) then 0%nat
      else if bool_decide (ch ∈ delim) then 0%nat else S (strcspn s' delim)
  end.

(** ** The key names (load_config.c, lines 4-13)

    [network_protocol] is the name of a member of [config_t] as well; the
    key name is [network_protocol_key] here. *)

Definition entity_info_name : list ascii := lit "entityInfo.name".
Definition entity_info_purpose : list ascii := lit "entityInfo.purpose".
Definition entity_info_numkey : list ascii := lit "entityInfo.number_key".
Definition authinfo_pubkey_path : list ascii := lit "authInfo.pubkey.path".
Definition entity_info_privkey_path : list ascii := lit "entityInfo.privkey.path".
Definition authInfo_ip_address : list ascii := lit "auth.ip.address".
Definition authInfo_port : list ascii := lit "auth.port.number".
Definition entity_serverInfo_ip_address : list ascii := lit "entity.server.ip.address".
Definition entity_serverInfo_port_number : list ascii := lit "entity.server.port.number".
Definition network_protocol_key : list ascii := lit "network.protocol".

(** The ten members of [config_t], in the order of the [switch]. *)
Inductive field :=
  | F_name | F_purpose | F_numkey | F_auth_pubkey_path | F_entity_privkey_path
  | F_auth_ip_addr | F_auth_port_num | F_entity_server_ip_addr
  | F_entity_server_port_num | F_network_protocol.

#[global] Instance field_eq_dec : EqDecision field.
Proof. solve_decision. Defined.

Definition all_fields : list field :=
  [F_name; F_purpose; F_numkey; F_auth_pubkey_path; F_entity_privkey_path;
   F_auth_ip_addr; F_auth_port_num; F_entity_server_ip_addr;
   F_entity_server_port_num; F_network_protocol].

(** The key name that selects a member. *)
Definition key_string (k : field) : list ascii :=
  match k with
  | F_name => entity_info_name
  | F_purpose => entity_info_purpose
  | F_numkey => entity_info_numkey
  | F_auth_pubkey_path => authinfo_pubkey_path
  | F_entity_privkey_path => entity_info_privkey_path
  | F_auth_ip_addr => authInfo_ip_address
  | F_auth_port_num => authInfo_port
  | F_entity_server_ip_addr => entity_serverInfo_ip_address
  | F_entity_server_port_num => entity_serverInfo_port_number
  | F_network_protocol => network_protocol_key
  end.

(** ** load_config.h *)

(** Modelled from the spec: the header load_config.h is not part of the
    sources at hand. It declares the line buffer size [MAX], the integer
    constants [ENTITY_INFO_NAME] ... [NETWORK_PROTOCOL] and the struct
    [config_t], whose ten members are character arrays ("each a
    bounded-length text field ... fixed maximum capacity"). Their values are
    left open: a header gives the buffer size, the value of each constant and
    the size of each member. *)
Record header := {
  MAX : nat;
  tag : field -> Z;
  sizeof : field -> nat
}.

(** What any header the loader compiles against satisfies: the labels of one
    [switch] are pairwise different, and arrays are not empty. That no
    constant is [-1], the value [get_key_value] returns for an unknown key,
    and that the buffer holds at least one character and the terminator, is
    what the loader relies on. *)
Record header_ok (h : header) : Prop := {
  tag_inj : forall k1 k2, tag h k1 = tag h k2 -> k1 = k2;
  tag_not_unmatched : forall k, tag h k <> -1;
  MAX_ge_2 : (2 <= MAX h)%nat;
  sizeof_pos : forall k, (0 < sizeof h k)%nat
}.

Section GetKeyValue.

Variable h : header.

Definition ENTITY_INFO_NAME : Z := tag h F_name.
Definition ENTITY_INFO_PURPOSE : Z := tag h F_purpose.
Definition ENTITY_INFO_NUMKEY : Z := tag h F_numkey.
Definition AUTH_INFO_PUBKEY_PATH : Z := tag h F_auth_pubkey_path.
Definition ENTITY_INFO_PRIVKEY_PATH : Z := tag h F_entity_privkey_path.
Definition AUTH_INFO_IP_ADDRESS : Z := tag h F_auth_ip_addr.
Definition AUTH_INFO_PORT : Z := tag h F_auth_port_num.
Definition ENTITY_SERVER_INFO_IP_ADDRESS : Z := tag h F_entity_server_ip_addr.
Definition ENTITY_SERVER_INFO_PORT_NUMBER : Z := tag h F_entity_server_port_num.
Definition NETWORK_PROTOCOL : Z := tag h F_network_protocol.

(** [int get_key_value(char *ptr)], on the string [ptr] points to. *)
Definition get_key_value (ptr : list ascii) : Z :=
  if strcmp ptr entity_info_name =? 0 then ENTITY_INFO_NAME
  else if strcmp ptr entity_info_purpose =? 0 then ENTITY_INFO_PURPOSE
  else if strcmp ptr entity_info_numkey =? 0 then ENTITY_INFO_NUMKEY
  else if strcmp ptr authinfo_pubkey_path =? 0 then AUTH_INFO_PUBKEY_PATH
  else if strcmp ptr entity_info_privkey_path =? 0 then ENTITY_INFO_PRIVKEY_PATH
  else if strcmp ptr authInfo_ip_address =? 0 then AUTH_INFO_IP_ADDRESS
  else if strcmp ptr authInfo_port =? 0 then AUTH_INFO_PORT
  else if strcmp ptr entity_serverInfo_ip_address =? 0 then ENTITY_SERVER_INFO_IP_ADDRESS
  else if strcmp ptr entity_serverInfo_port_number =? 0 then ENTITY_SERVER_INFO_PORT_NUMBER
  else if strcmp ptr network_protocol_key =? 0 then NETWORK_PROTOCOL
  else -1.

End GetKeyValue.

(** ** The program state *)

(** [config_t]: ten character arrays. *)
Record config_t := {
  name : list ascii;
  purpose : list ascii;
  numkey : list ascii;
  auth_pubkey_path : list ascii;
  entity_privkey_path : list ascii;
  auth_ip_addr : list ascii;
  auth_port_num : list ascii;
  entity_server_ip_addr : list ascii;
  entity_server_port_num : list ascii;
  network_protocol : list ascii
}.

Definition member (k : field) (c : config_t) : list ascii :=
  match k with
  | F_name => name c
  | F_purpose => purpose c
  | F_numkey => numkey c
  | F_auth_pubkey_path => auth_pubkey_path c
  | F_entity_privkey_path => entity_privkey_path c
  | F_auth_ip_addr => auth_ip_addr c
  | F_auth_port_num => auth_port_num c
  | F_entity_server_ip_addr => entity_server_ip_addr c
  | F_entity_server_port_num => entity_server_port_num c
  | F_network_protocol => network_protocol c
  end.

Definition set_member (k : field) (v : list ascii) (c : config_t) : config_t :=
  match k with
  | F_name =>
      {| name := v; purpose := purpose c; numkey := numkey c;
         auth_pubkey_path := auth_pubkey_path c;
         entity_privkey_path := entity_privkey_path c;
         auth_ip_addr := auth_ip_addr c; auth_port_num := auth_port_num c;
         entity_server_ip_addr := entity_server_ip_addr c;
         entity_server_port_num := entity_server_port_num c;
         network_protocol := network_protocol c |}
  | F_purpose =>
      {| name := name c; purpose := v; numkey := numkey c;
         auth_pubkey_path := auth_pubkey_path c;
         entity_privkey_path := entity_privkey_path c;
         auth_ip_addr := auth_ip_addr c; auth_port_num := auth_port_num c;
         entity_server_ip_addr := entity_server_ip_addr c;
         entity_server_port_num := entity_server_port_num c;
         network_protocol := network_protocol c |}
  | F_numkey =>
      {| name := name c; purpose := purpose c; numkey := v;
         auth_pubkey_path := auth_pubkey_path c;
         entity_privkey_path := entity_privkey_path c;
         auth_ip_addr := auth_ip_addr c; auth_port_num := auth_port_num c;
         entity_server_ip_addr := entity_server_ip_addr c;
         entity_server_port_num := entity_server_port_num c;
         network_protocol := network_protocol c |}
  | F_auth_pubkey_path =>
      {| name := name c; purpose := purpose c; numkey := numkey c;
         auth_pubkey_path := v;
         entity_privkey_path := entity_privkey_path c;
         auth_ip_addr := auth_ip_addr c; auth_port_num := auth_port_num c;
         entity_server_ip_addr := entity_server_ip_addr c;
         entity_server_port_num := entity_server_port_num c;
         network_protocol := network_protocol c |}
  | F_entity_privkey_path =>
      {| name := name c; purpose := purpose c; numkey := numkey c;
         auth_pubkey_path := auth_pubkey_path c;
         entity_privkey_path := v;
         auth_ip_addr := auth_ip_addr c; auth_port_num := auth_port_num c;
         entity_server_ip_addr := entity_server_ip_addr c;
         entity_server_port_num := entity_server_port_num c;
         network_protocol := network_protocol c |}
  | F_auth_ip_addr =>
      {| name := name c; purpose := purpose c; numkey := numkey c;
         auth_pubkey_path := auth_pubkey_path c;
         entity_privkey_path := entity_privkey_path c;
         auth_ip_addr := v; auth_port_num := auth_port_num c;
         entity_server_ip_addr := entity_server_ip_addr c;
         entity_server_port_num := entity_server_port_num c;
         network_protocol := network_protocol c |}
  | F_auth_port_num =>
      {| name := name c; purpose := purpose c; numkey := numkey c;
         auth_pubkey_path := auth_pubkey_path c;
         entity_privkey_path := entity_privkey_path c;
         auth_ip_addr := auth_ip_addr c; auth_port_num := v;
         entity_server_ip_addr := entity_server_ip_addr c;
         entity_server_port_num := entity_server_port_num c;
         network_protocol := network_protocol c |}
  | F_entity_server_ip_addr =>
      {| name := name c; purpose := purpose c; numkey := numkey c;
         auth_pubkey_path := auth_pubkey_path c;
         entity_privkey_path := entity_privkey_path c;
         auth_ip_addr := auth_ip_addr c; auth_port_num := auth_port_num c;
         entity_server_ip_addr := v;
         entity_server_port_num := entity_server_port_num c;
         network_protocol := network_protocol c |}
  | F_entity_server_port_num =>
      {| name := name c; purpose := purpose c; numkey := numkey c;
         auth_pubkey_path := auth_pubkey_path c;
         entity_privkey_path := entity_privkey_path c;
         auth_ip_addr := auth_ip_addr c; auth_port_num := auth_port_num c;
         entity_server_ip_addr := entity_server_ip_addr c;
         entity_server_port_num := v;
         network_protocol := network_protocol c |}
  | F_network_protocol =>
      {| name := name c; purpose := purpose c; numkey := numkey c;
         auth_pubkey_path := auth_pubkey_path c;
         entity_privkey_path := entity_privkey_path c;
         auth_ip_addr := auth_ip_addr c; auth_port_num := auth_port_num c;
         entity_server_ip_addr := entity_server_ip_addr c;
         entity_server_port_num := entity_server_port_num c;
         network_protocol := v |}
  end.

(** A stream opened for reading: the characters not read yet, the
    end-of-file indicator, and whether it is still open. *)
Record FILE := {
  unread : list ascii;
  eof_indicator : bool;
  is_open : bool
}.

(** A pointer into [buffer] is an offset; [None] is the null pointer. The
    loader passes no other string to [strtok], [printf] or [memcpy]. *)
Definition ptr := option nat.

(** The library calls of a run, in the order they are made. *)
Inductive event :=
  | Printf (text : list ascii)
  | Fgets (ret : ptr)
  | Strtok (str : ptr) (delim : list ascii) (ret : ptr)
  | Memcpy (dst : field) (src : nat)
  | Fclose.

Record state := {
  c_obj : config_t;         (* the object [c] points to *)
  fp : option FILE;         (* the stream behind [fp]; [None]: [fp] is null *)
  buffer : list ascii;      (* [char buffer[MAX]] *)
  strtok_save : ptr;        (* where [strtok] resumes; [None]: no string yet *)
  events : list event
}.

Definition set_c_obj (c : config_t) (s : state) : state :=
  {| c_obj := c; fp := fp s; buffer := buffer s;
     strtok_save := strtok_save s; events := events s |}.
Definition set_fp (f : option FILE) (s : state) : state :=
  {| c_obj := c_obj s; fp := f; buffer := buffer s;
     strtok_save := strtok_save s; events := events s |}.
Definition set_buffer (b : list ascii) (s : state) : state :=
  {| c_obj := c_obj s; fp := fp s; buffer := b;
     strtok_save := strtok_save s; events := events s |}.
Definition set_strtok_save (p : ptr) (s : state) : state :=
  {| c_obj := c_obj s; fp := fp s; buffer := buffer s;
     strtok_save := p; events := events s |}.
Definition emit (e : event) (s : state) : state :=
  {| c_obj := c_obj s; fp := fp s; buffer := buffer s;
     strtok_save := strtok_save s; events := events s ++ [e] |}.

(** What the C standard leaves undefined and the loader can run into. *)
Inductive undefined_behaviour :=
  | UB_null_stream            (* a null [FILE *] given to a stream function *)
  | UB_strtok_no_string       (* [strtok(NULL, _)] before any string was given *)
  | UB_null_string            (* a null pointer read as a string *)
  | UB_out_of_bounds.         (* a read past the end of [buffer] *)

Inductive result (A : Type) :=
  | Ok (a : A) (s : state)
  | Undefined (u : undefined_behaviour) (s : state)
  | OutOfFuel (s : state).
Arguments Ok {A} a s.
Arguments Undefined {A} u s.
Arguments OutOfFuel {A} s.

(** The state and error monad the loader runs in. *)
Definition M (A : Type) : Type := state -> result A.

Definition ret {A} (a : A) : M A := fun s => Ok a s.
Definition bind {A B} (m : M A) (f : A -> M B) : M B :=
  fun s => match m s with
           | Ok a s' => f a s'
           | Undefined u s' => Undefined u s'
           | OutOfFuel s' => OutOfFuel s'
           end.
Definition undefined {A} (u : undefined_behaviour) : M A := fun s => Undefined u s.
Definition get : M state := fun s => Ok s s.
Definition modify (f : state -> state) : M unit := fun s => Ok tt (f s).

Declare Scope c_scope.
Delimit Scope c_scope with C.
Notation "x <- m ;; k" := (bind m (fun x => k))
  (at level 90, m at level 89, right associativity) : c_scope.
Notation "m ;;; k" := (bind m (fun _ => k))
  (at level 90, right associativity) : c_scope.
Local Open Scope c_scope.

(** ** The C library calls of the loader *)

(** A file system: the content of the files that can be opened for reading. *)
Definition file_system := string -> option (list ascii).

(** [fopen(path, "r")]: a fresh stream at the start of the file, or null. *)
Definition fopen (fs : file_system) (path : string) : option FILE :=
  match fs path with
  | Some content => Some {| unread := content; eof_indicator := false; is_open := true |}
  | None => None
  end.

Definition feof : M bool := fun s =>
  match fp s with
  | None => Undefined UB_null_stream s
  | Some f => Ok (eof_indicator f) s
  end.

(** The characters one [fgets] takes from the stream: at most [n], and none
    after a newline. The flag tells whether the end of the stream was hit,
    which is when the stream's end-of-file indicator gets set. *)
Fixpoint read_line (n : nat) (s : list ascii) : list ascii * list ascii * bool :=
  match n with
  | O => ([], s, false)
  | S n' =>
      match s with
      | [] => ([], [], true)
      | ch :: s' =>
          if bool_decide (ch = NL) then ([ch], s', false)
          else let '(l, r, e) := read_line n' s' in (ch :: l, r, e)
      end
  end.

(** [fgets(buffer, n, fp)]: at most [n - 1] characters go to the start of
    [buffer], followed by a terminator; at the end of the file with nothing
    read, [buffer] is left as it is and null is returned. *)
Definition fgets (n : nat) : M ptr := fun s =>
  match fp s with
  | None => Undefined UB_null_stream s
  | Some f =>
      let '(l, r, e) := read_line (n - 1) (unread f) in
      let f' := {| unread := r; eof_indicator := eof_indicator f || e;
                   is_open := is_open f |} in
      if e && bool_decide (l = []) then
        Ok None (emit (Fgets None) (set_fp (Some f') s))
      else
        Ok (Some 0%nat)
           (emit (Fgets (Some 0%nat))
              (set_buffer (l ++ NUL :: drop (S (length l)) (buffer s))
                 (set_fp (Some f') s)))
  end.

Definition fclose : M unit := fun s =>
  match fp s with
  | None => Undefined UB_null_stream s
  | Some f =>
      Ok tt (emit Fclose
               (set_fp (Some {| unread := unread f; eof_indicator := eof_indicator f;
                                is_open := false |}) s))
  end.

(** [strtok(str, delim)]: scanning starts at [str], or where the last call
    stopped when [str] is null. Leading delimiters are skipped; at the end of
    the string null is returned; otherwise the token runs up to the next
    delimiter, which is overwritten with a terminator. *)
Definition strtok (str : ptr) (delim : list ascii) : M ptr := fun s =>
  let start := match str with Some p => Some p | None => strtok_save s end in
  match start with
  | None => Undefined UB_strtok_no_string s
  | Some p =>
      let buf := buffer s in
      match buf !! p with
      | None => Undefined UB_out_of_bounds s
      | Some ch =>
          if bool_decide (ch = NUL) then
            Ok None (emit (Strtok str delim None) (set_strtok_save (Some p) s))
          else
            let p1 := (p + strspn (drop p buf) delim)%nat in
            match buf !! p1 with
            | None => Undefined UB_out_of_bounds s
            | Some ch1 =>
                if bool_decide (ch1 = NUL) then
                  Ok None (emit (Strtok str delim None) (set_strtok_save (Some p1) s))
                else
                  let e := (p1 + strcspn (drop p1 buf) delim)%nat in
                  match buf !! e with
                  | None => Undefined UB_out_of_bounds s
                  | Some che =>
                      if bool_decide (che = NUL) then
                        Ok (Some p1)
                           (emit (Strtok str delim (Some p1))
                              (set_strtok_save (Some e) s))
                      else
                        Ok (Some p1)
                           (emit (Strtok str delim (Some p1))
                              (set_strtok_save (Some (S e))
                                 (set_buffer (<[e := NUL]> buf) s)))
                  end
            end
      end
  end.

(** The string a [char *] argument points to. *)
Definition read_string (p : ptr) : M (list ascii) := fun s =>
  match p with
  | None => Undefined UB_null_string s
  | Some i =>
      match c_str (drop i (buffer s)) with
      | None => Undefined UB_out_of_bounds s
      | Some t => Ok t s
      end
  end.

(** [printf] of a format without conversions. *)
Definition printf0 (text : list ascii) : M unit := modify (emit (Printf text)).

(** [printf] of a format with one [%s] between [before] and [after]. *)
Definition printf (before : list ascii) (arg : ptr) (after : list ascii) : M unit :=
  t <- read_string arg ;; modify (emit (Printf (before ++ t ++ after))).

Section Loader.

Variable h : header.

(** [memcpy(c->k, src, sizeof(c->k))]: [sizeof(c->k)] characters are read
    from [src] on, whatever the length of the string there. *)
Definition memcpy (k : field) (src : ptr) : M unit := fun s =>
  match src with
  | None => Undefined UB_null_string s
  | Some i =>
      if decide (i + sizeof h k <= length (buffer s))%nat then
        Ok tt (emit (Memcpy k i)
                 (set_c_obj (set_member k (take (sizeof h k) (drop i (buffer s)))
                               (c_obj s)) s))
      else Undefined UB_out_of_bounds s
  end.

(** The text of the progress line before and after the value. *)
Definition label (k : field) : list ascii :=
  match k with
  | F_name => lit "name: "
  | F_purpose => lit "purpose: "
  | F_numkey => lit "Numkey: "
  | F_auth_pubkey_path => lit "Pubkey path of Auth: "
  | F_entity_privkey_path => lit "Privkey path of Entity: "
  | F_auth_ip_addr => lit "IP address of Auth: "
  | F_auth_port_num => lit "Port number of Auth: "
  | F_entity_server_ip_addr => lit "IP address of entity server: "
  | F_entity_server_port_num => lit "Port number of entity server: "
  | F_network_protocol => lit "Network Protocol: "
  end.

Definition label_end (k : field) : list ascii :=
  match k with
  | F_network_protocol => [NL]
  | _ => []
  end.

(** The statements of one [case]: they differ in the text printed and in
    the member written only. *)
Definition case_body (k : field) : M unit :=
  ptr <- strtok None [SP] ;;
  printf (label k) ptr (label_end k) ;;;
  memcpy k ptr.

(** [switch (v) { case ENTITY_INFO_NAME: ... }], without a default. *)
Definition switch (v : Z) : M unit :=
  if v =? ENTITY_INFO_NAME h then case_body F_name
  else if v =? ENTITY_INFO_PURPOSE h then case_body F_purpose
  else if v =? ENTITY_INFO_NUMKEY h then case_body F_numkey
  else if v =? AUTH_INFO_PUBKEY_PATH h then case_body F_auth_pubkey_path
  else if v =? ENTITY_INFO_PRIVKEY_PATH h then case_body F_entity_privkey_path
  else if v =? AUTH_INFO_IP_ADDRESS h then case_body F_auth_ip_addr
  else if v =? AUTH_INFO_PORT h then case_body F_auth_port_num
  else if v =? ENTITY_SERVER_INFO_IP_ADDRESS h then case_body F_entity_server_ip_addr
  else if v =? ENTITY_SERVER_INFO_PORT_NUMBER h then case_body F_entity_server_port_num
  else if v =? NETWORK_PROTOCOL h then case_body F_network_protocol
  else ret tt.

(** The statements after [fgets]: the inner [while] ends with [break], so
    its body runs once when [ptr] is not null, and not at all otherwise. *)
Definition tokenize (pline : ptr) : M unit :=
  ptr <- strtok pline [EQS] ;;
  match ptr with
  | None => ret tt
  | Some _ => key <- read_string ptr ;; switch (get_key_value h key)
  end.

Definition loop_body : M unit :=
  pline <- fgets (MAX h) ;;
  tokenize pline.

(** [while (!feof(fp)) { ... }] *)
Fixpoint while_not_feof (fuel : nat) : M unit := fun s =>
  match fuel with
  | O => OutOfFuel s
  | S fuel' =>
      (at_end <- feof ;;
       if at_end then ret tt else loop_body ;;; while_not_feof fuel') s
  end.

(** The state after the declarations: [c] points to the storage [malloc]
    returned ([malloc] is taken to succeed), whose content [heap] is
    whatever was there; [buffer] is zeroed; no [strtok] scan is under way
    when the loader is called. *)
Definition initial_state (fs : file_system) (path : string) (heap : config_t) : state :=
  {| c_obj := heap; fp := fopen fs path;
     buffer := replicate (MAX h) NUL; strtok_save := None; events := [] |}.

(** Iterations that suffice: every [fgets] takes a character or hits the
    end of the file. *)
Definition fuel_for (s : state) : nat :=
  match fp s with
  | Some f => (length (unread f) + 2)%nat
  | None => 1%nat
  end.

Definition load_config_t (fs : file_system) (path : string) (heap : config_t)
  : result config_t :=
  let s0 := initial_state fs path heap in
  (printf0 (lit "--config--" ++ [NL]) ;;;
   while_not_feof (fuel_for s0) ;;;
   fclose ;;;
   s <- get ;; ret (c_obj s)) s0.

End Loader.

(** * Vocabulary of the properties *)

(** ** Configuration files, line by line *)

(** A line of a configuration file: a text with no ['='] in it (a blank
    line, for one), or a key, ['='], a value, and maybe more text after a
    space. [nl] tells whether a newline ends the line, as it does but for
    the last line of some files. *)
Inductive line :=
  | Plain (text : list ascii) (nl : bool)
  | Entry (key value rest : list ascii) (nl : bool).

Definition eol (nl : bool) : list ascii := if nl then [NL] else [].

Definition ends_with_newline (l : line) : bool :=
  match l with
  | Plain _ nl | Entry _ _ _ nl => nl
  end.

Definition render (l : line) : list ascii :=
  match l with
  | Plain text nl => text ++ eol nl
  | Entry key value rest nl => key ++ EQS :: value ++ rest ++ eol nl
  end.

Definition render_all (ls : list line) : list ascii := concat (render <$> ls).

(** The token [strtok(NULL, " ")] finds after the ['=']: the value up to
    the first space, or up to the end of the line, its newline included. *)
Definition value_token (value rest : list ascii) (nl : bool) : list ascii :=
  match rest with
  | [] => value ++ eol nl
  | _ => value
  end.

(** The member a key name selects, if any. *)
Definition field_of_key (key : list ascii) : option field :=
  head (filter (fun k => key_string k = key) all_fields).

(** The lines this development follows the loader on. They fit into the
    buffer with their newline; nothing but the key stands before the ['='];
    after a key the loader knows, the value has no space in it and starts
    right after the ['='], there is a token to find, and copying [sizeof]
    characters from there stays inside the buffer; what the scan of the line
    leaves unread has no ['=']; a text that no newline ends is not empty and
    is no key name. *)
Definition line_ok (h : header) (l : line) : Prop :=
  match l with
  | Plain text nl =>
      (NUL ∉ text) /\ (NL ∉ text) /\ (EQS ∉ text) /\ (length text + 1 < MAX h)%nat /\
      (nl = false -> text <> [] /\ field_of_key text = None)
  | Entry key value rest nl =>
      key <> [] /\ (NUL ∉ key) /\ (NL ∉ key) /\ (EQS ∉ key) /\
      (NUL ∉ value) /\ (NL ∉ value) /\
      (NUL ∉ rest) /\ (NL ∉ rest) /\ (EQS ∉ rest) /\
      (rest = [] \/ head rest = Some SP) /\
      (length key + 1 + length value + length rest + 1 < MAX h)%nat /\
      match field_of_key key with
      | Some k =>
          (SP ∉ value) /\ value_token value rest nl <> [] /\
          (length key + 1 + sizeof h k <= MAX h)%nat
      | None => EQS ∉ value
      end
  end.

(** Every line but the last ends with a newline. *)
Fixpoint terminated (ls : list line) : Prop :=
  match ls with
  | [] => True
  | l :: ls' => (ls' <> [] -> ends_with_newline l = true) /\ terminated ls'
  end.

(** A file the development follows the loader on. *)
Definition file_ok (h : header) (ls : list line) : Prop :=
  Forall (line_ok h) ls /\ terminated ls.

(** The value a line gives to member [k], if it gives one. *)
Definition line_value (k : field) (l : line) : option (list ascii) :=
  match l with
  | Entry key value rest nl =>
      if decide (key = key_string k) then Some (value_token value rest nl) else None
  | Plain _ _ => None
  end.

(** The value the last line that gives one to member [k] gives. *)
Fixpoint last_value (k : field) (ls : list line) : option (list ascii) :=
  match ls with
  | [] => None
  | l :: ls' =>
      match last_value k ls' with
      | Some v => Some v
      | None => line_value k l
      end
  end.

(** A member holds token [tok]: it holds the characters [memcpy] found from
    the start of [tok] on, which are [tok], its terminator, and whatever the
    buffer held behind it, cut off at the size of the member. *)
Definition holds (h : header) (k : field) (tok : list ascii) (c : config_t) : Prop :=
  exists junk, member k c = take (sizeof h k) (tok ++ NUL :: junk).

(** How the members stand after the lines [ls], from what they were in [c]. *)
Definition members_after (h : header) (ls : list line) (c c' : config_t) : Prop :=
  forall k,
    match last_value k ls with
    | Some tok => holds h k tok c'
    | None => member k c' = member k c
    end.

(** Every member of [*c] has the size the header declares. *)
Definition sized (h : header) (c : config_t) : Prop :=
  forall k, length (member k c) = sizeof h k.

(** ** What a run did *)

Definition banner : list ascii := lit "--config--" ++ [NL].

Definition progress_line (k : field) (tok : list ascii) : list ascii :=
  label k ++ tok ++ label_end k.

(** What a run printed. *)
Definition printed (evs : list event) : list (list ascii) :=
  omap (fun e => match e with Printf t => Some t | _ => None end) evs.

(** The members a run wrote, in order. *)
Definition written (evs : list event) : list field :=
  omap (fun e => match e with Memcpy k _ => Some k | _ => None end) evs.

(** The progress line a line of the file is answered with, if any. *)
Definition line_output (l : line) : list (list ascii) :=
  match l with
  | Entry key value rest nl =>
      match field_of_key key with
      | Some k => [progress_line k (value_token value rest nl)]
      | None => []
      end
  | Plain _ _ => []
  end.

(** What a line does to [*c]: the member its key selects is written. *)
Definition line_effect (h : header) (l : line) (c c' : config_t) : Prop :=
  match l with
  | Entry key value rest nl =>
      match field_of_key key with
      | Some k =>
          exists junk,
            c' = set_member k
                   (take (sizeof h k) (value_token value rest nl ++ NUL :: junk)) c
      | None => c' = c
      end
  | Plain _ _ => c' = c
  end.

(** A round in which [fgets] returned null, and [strtok] was given it. *)
Definition extra_round (evs : list event) : Prop :=
  exists pre r post, evs = pre ++ Fgets None :: Strtok None [EQS] r :: post.

(** The stream has not been closed. *)
Definition still_open (s : state) : Prop :=
  (forall f, fp s = Some f -> is_open f = true) /\ Fclose ∉ events s.

(** The stream is open, not at its end, and [content] is left to read. *)
Definition reading (s : state) (content : list ascii) : Prop :=
  fp s = Some {| unread := content; eof_indicator := false; is_open := true |}.

(** The stream is open, and its end has been hit. *)
Definition at_eof (s : state) : Prop :=
  fp s = Some {| unread := []; eof_indicator := true; is_open := true |}.

(** How many more times the loop can come round at most. *)
Definition iterations_left (s : state) : nat :=
  match fp s with
  | Some f => if eof_indicator f then 0%nat else S (length (unread f))
  | None => 0%nat
  end.

(** Where a call of [strtok] starts to scan. *)
Definition scan_start (str : ptr) (s : state) : ptr :=
  match str with Some p => Some p | None => strtok_save s end.

(** Where [strtok] would resume, the string is empty or one that is no key
    and has no ['='] in it: a further [strtok(NULL, "=")] finds nothing the
    loader acts on. *)
Definition resume_harmless (s : state) : Prop :=
  exists pre t post,
    buffer s = pre ++ t ++ NUL :: post /\ strtok_save s = Some (length pre) /\
    (NUL ∉ t) /\ (EQS ∉ t) /\ (t = [] \/ NL ∈ t).

(** What the statements after [fgets] did between [s] and [s']. *)
Definition tokenized (s s' : state) (c' : config_t) (out : list (list ascii)) : Prop :=
  fp s' = fp s /\ length (buffer s') = length (buffer s) /\
  c_obj s' = c' /\ printed (events s') = printed (events s) ++ out.

(** ** Relations between the states of a run *)

(** However [m] ends when started in [s], it ends in a state that [R]
    relates to [s]. *)
Definition ends_in {A} (R : state -> state -> Prop) (m : M A) : Prop :=
  forall s, match m s with
            | Ok _ s' | Undefined _ s' | OutOfFuel s' => R s s'
            end.

(** A relation that survives the updates the statements of the loop body
    after [fgets] make: a change of [buffer], of the place [strtok] resumes
    at, a member of [*c] written with as many characters as it has, and the
    record of a call other than [fgets] and [fclose]. *)
Record tokenize_closed (h : header) (R : state -> state -> Prop) : Prop := {
  tc_refl : forall s, R s s;
  tc_trans : forall s1 s2 s3, R s1 s2 -> R s2 s3 -> R s1 s3;
  tc_buffer : forall b s, R s (set_buffer b s);
  tc_save : forall p s, R s (set_strtok_save p s);
  tc_member : forall k v s,
    length v = sizeof h k -> R s (set_c_obj (set_member k v (c_obj s)) s);
  tc_strtok : forall str delim r s, R s (emit (Strtok str delim r) s);
  tc_printf : forall t s, R s (emit (Printf t) s);
  tc_memcpy : forall k i s, R s (emit (Memcpy k i) s)
}.

(** A relation that moreover survives what [fgets] does to the stream. *)
Record loop_closed (h : header) (R : state -> state -> Prop) : Prop := {
  lc_tokenize :> tokenize_closed h R;
  lc_fgets : forall r s, R s (emit (Fgets r) s);
  lc_stream : forall f l e s,
    fp s = Some f ->
    R s (set_fp (Some {| unread := l; eof_indicator := e; is_open := is_open f |}) s)
}.

Definition never_out_of_fuel {A} (m : M A) : Prop :=
  forall s, match m s with OutOfFuel _ => False | _ => True end.

(** The statements after [fgets] leave the stream alone, and add to the
    record of calls. *)
Definition same_stream (s s' : state) : Prop :=
  fp s' = fp s /\ exists evs, events s' = events s ++ evs.

(** No [fgets] has returned null so far, or none does later. *)
Definition no_null_fgets (s s' : state) : Prop :=
  Fgets None ∉ events s -> Fgets None ∉ events s'.

Definition keeps_open (s s' : state) : Prop := still_open s -> still_open s'.

Definition keeps_sized (h : header) (s s' : state) : Prop :=
  sized h (c_obj s) -> sized h (c_obj s').

(** ** A header and files for the examples *)

(** The constants as an [enum] numbers them, a buffer of 256 characters,
    members of 32 characters. *)
Definition example_tag (k : field) : Z :=
  match k with
  | F_name => 0
  | F_purpose => 1
  | F_numkey => 2
  | F_auth_pubkey_path => 3
  | F_entity_privkey_path => 4
  | F_auth_ip_addr => 5
  | F_auth_port_num => 6
  | F_entity_server_ip_addr => 7
  | F_entity_server_port_num => 8
  | F_network_protocol => 9
  end.

Definition example_header : header :=
  {| MAX := 256; tag := example_tag; sizeof := fun _ => 32%nat |}.

(** Storage that is not zeroed: every member is full of ['?']. *)
Definition stale : config_t :=
  let m := replicate 32 "?"%char in
  {| name := m; purpose := m; numkey := m; auth_pubkey_path := m;
     entity_privkey_path := m; auth_ip_addr := m; auth_port_num := m;
     entity_server_ip_addr := m; entity_server_port_num := m;
     network_protocol := m |}.

(** A file system with the one file ["entity.config"]. *)
Definition one_file (content : list ascii) : file_system :=
  fun path => if String.eqb path "entity.config" then Some content else None.

#[global] Instance event_eq_dec : EqDecision event.
Proof. solve_decision. Defined.

#[global] Instance line_ok_dec (h : header) (l : line) : Decision (line_ok h l).
Proof.
  destruct l as [text nl|key value rest nl]; simpl; [apply _|].
  destruct (field_of_key key); apply _.
Defined.

#[global] Instance terminated_dec (ls : list line) : Decision (terminated ls).
Proof. induction ls as [|l ls IH]; simpl; apply _. Defined.

#[global] Instance file_ok_dec (h : header) (ls : list line) : Decision (file_ok h ls).
Proof. unfold file_ok. apply _. Defined.

(** The example file of the specification, with the ['='] as the loader
    wants it. *)
Definition example_lines : list line :=
  [Entry (lit "entityInfo.name") (lit "deviceA") [] true;
   Entry (lit "auth.ip.address") (lit "10.0.0.1") [] true;
   Entry (lit "auth.port.number") (lit "9000") [] true;
   Entry (lit "network.protocol") (lit "TCP") [] true].

Definition example_config : list ascii :=
  lit "entityInfo.name=deviceA" ++ NL
  :: lit "auth.ip.address=10.0.0.1" ++ NL
  :: lit "auth.port.number=9000" ++ NL
  :: lit "network.protocol=TCP" ++ [NL].

(** A file where the name is given twice, the port with a comment behind,
    the rest is blank or unknown, and no newline ends the last line. *)
Definition twice_lines : list line :=
  [Plain [] true;
   Entry (lit "entityInfo.name") (lit "deviceA") [] true;
   Entry (lit "comment") (lit "the name again") [] true;
   Entry (lit "entityInfo.name") (lit "deviceB") [] true;
   Entry (lit "auth.port.number") (lit "9000") (lit " # default") true;
   Entry (lit "network.protocol") (lit "TCP") [] false].

(** A file without a key the loader knows: the name, written with spaces
    around the ['='], a blank line and a remark. *)
Definition unknown_lines : list line :=
  [Entry (lit "entityInfo.name ") (lit " deviceA") [] true;
   Plain [] true;
   Plain (lit "# no more") false].

(** A name of 40 characters. *)
Definition long_name : list ascii := lit "0123456789012345678901234567890123456789".

(** ** The writes of a run *)

(** The token the last write to member [k] stored, among the writes [ws]
    of a run, each a member and the token found for it. *)
Fixpoint last_token (k : field) (ws : list (field * list ascii)) : option (list ascii) :=
  match ws with
  | [] => None
  | w :: ws' =>
      match last_token k ws' with
      | Some tok => Some tok
      | None => if decide (w.1 = k) then Some w.2 else None
      end
  end.

(** The record [c] and the calls [evs] of a run agree with the writes
    [ws]: the members copied to are those of [ws], in order; what was
    printed is the banner and the progress line of each write; a member
    written holds the token of its last write, and a member not written is
    as it was in [heap]. *)
Definition agrees (h : header) (heap : config_t) (ws : list (field * list ascii))
    (c : config_t) (evs : list event) : Prop :=
  written evs = ws.*1 /\
  printed evs = banner :: ((fun w => progress_line w.1 w.2) <$> ws) /\
  forall k, match last_token k ws with
            | Some tok => holds h k tok c
            | None => member k c = member k heap
            end.

(** The end of the stream is marked only once nothing is left to read. *)
Definition eof_at_end (s : state) : Prop :=
  forall f, fp s = Some f -> eof_indicator f = true -> unread f = [].

(** ** Scans that stay inside [buffer] *)

(** [buffer] has its [MAX] characters, the last of which is a terminator,
    the stream is not null, and [strtok] resumes inside [buffer] if it has
    a place to resume at. *)
Definition scan_safe (h : header) (s : state) : Prop :=
  is_Some (fp s) /\ length (buffer s) = MAX h /\
  buffer s !! (MAX h - 1)%nat = Some NUL /\
  forall p, strtok_save s = Some p -> (p < MAX h)%nat.

(** [strtok] has a place to resume at, or the next [fgets] reads a
    character and gives it a string. *)
Definition scan_ready (s : state) : Prop :=
  is_Some (strtok_save s) \/ exists f, fp s = Some f /\ unread f <> [].

(** The two ways the loader goes wrong on a file that is there and not
    empty: [strtok(NULL, " ")] found no value and returned null, which goes
    to [printf] as a string; or the value starts at offset [i] of [buffer],
    the progress line was printed, and the [sizeof] characters [memcpy] is
    to copy from there do not all lie in [buffer]. *)
Definition fault (h : header) (u : undefined_behaviour) (s : state) : Prop :=
  match u with
  | UB_null_string => exists pre, events s = pre ++ [Strtok None [SP] None]
  | UB_out_of_bounds =>
      exists pre k i tok,
        events s = pre ++ [Strtok None [SP] (Some i); Printf (progress_line k tok)] /\
        (MAX h < i + sizeof h k)%nat
  | UB_null_stream | UB_strtok_no_string => False
  end.

(** ** Lines before the last *)

(** A line that a newline ends and that fits into the buffer, as above,
    but with any text behind the first value, and any text behind the ['=']
    when the key is not one the loader knows. *)
Definition inner_line_ok (h : header) (l : line) : Prop :=
  match l with
  | Plain text nl =>
      nl = true /\ (NUL ∉ text) /\ (NL ∉ text) /\ (EQS ∉ text) /\
      (length text + 1 < MAX h)%nat
  | Entry key value rest nl =>
      nl = true /\ key <> [] /\ (NUL ∉ key) /\ (NL ∉ key) /\ (EQS ∉ key) /\
      (NUL ∉ value) /\ (NL ∉ value) /\ (NUL ∉ rest) /\ (NL ∉ rest) /\
      (rest = [] \/ head rest = Some SP) /\
      (length key + 1 + length value + length rest + 1 < MAX h)%nat /\
      match field_of_key key with
      | Some k =>
          (SP ∉ value) /\ value_token value rest nl <> [] /\
          (length key + 1 + sizeof h k <= MAX h)%nat
      | None => True
      end
  end.

#[global] Instance inner_line_ok_dec (h : header) (l : line) : Decision (inner_line_ok h l).
Proof.
  destruct l as [text nl|key value rest nl]; simpl; [apply _|].
  destruct (field_of_key key); apply _.
Defined.

(** A file the development follows the loader on, lines with text behind
    their first value included: it is not empty, its last line is as
    [line_ok] says, and the lines before it are as [inner_line_ok] says. *)
Fixpoint well_formed (h : header) (ls : list line) : Prop :=
  match ls with
  | [] => False
  | l :: ls' =>
      match ls' with
      | [] => line_ok h l
      | _ :: _ => inner_line_ok h l /\ well_formed h ls'
      end
  end.

#[global] Instance well_formed_dec (h : header) (ls : list line) : Decision (well_formed h ls).
Proof.
  induction ls as [|l ls IH]; [apply _|]. destruct ls; simpl in *; apply _.
Defined.

(** ** The format with spaces around the ['='] *)

(** A key name, a space, ['='], a space, a value and a newline. *)
Definition spaced_line (kv : field * list ascii) : line :=
  Entry (key_string kv.1 ++ [SP]) (SP :: kv.2) [] true.

(** A value that fits on such a line with its key. *)
Definition spaced_ok (h : header) (kv : field * list ascii) : Prop :=
  (NUL ∉ kv.2) /\ (NL ∉ kv.2) /\ (EQS ∉ kv.2) /\
  (length (key_string kv.1) + length kv.2 + 4 < MAX h)%nat.

(** The example file of the specification, as it is written there. *)
Definition example_pairs : list (field * list ascii) :=
  [(F_name, lit "deviceA"); (F_auth_ip_addr, lit "10.0.0.1");
   (F_auth_port_num, lit "9000"); (F_network_protocol, lit "TCP")].

(** ** Two runs on different storage *)

(** Two states that differ in [*c] only, and there only in members that
    have not been written. *)
Definition alike (s1 s2 : state) : Prop :=
  fp s1 = fp s2 /\ buffer s1 = buffer s2 /\ strtok_save s1 = strtok_save s2 /\
  events s1 = events s2 /\
  forall k, k ∈ written (events s1) -> member k (c_obj s1) = member k (c_obj s2).

Definition alike_results {A} (r1 r2 : result A) : Prop :=
  match r1, r2 with
  | Ok a1 s1, Ok a2 s2 => a1 = a2 /\ alike s1 s2
  | Undefined u1 s1, Undefined u2 s2 => u1 = u2 /\ alike s1 s2
  | OutOfFuel s1, OutOfFuel s2 => alike s1 s2
  | _, _ => False
  end.

(** From states that are alike, [m] does the same in both. *)
Definition lockstep {A} (m : M A) : Prop :=
  forall s1 s2, alike s1 s2 -> alike_results (m s1) (m s2).

(** ** More headers and files for the examples *)

(** A header whose buffer is no larger than a member. *)
Definition tight_header : header :=
  {| MAX := 32; tag := example_tag; sizeof := fun _ => 32%nat |}.

(** The state in which the loop of the loader starts on the example file. *)
Definition example_start : state :=
  emit (Printf banner)
    (initial_state example_header (one_file example_config) "entity.config" stale).


Definition port_line : line := Entry (lit "auth.port.number") (lit "9000") [] true.

(** As many ['#'] as fill the buffer of the example header. *)
Definition long_remark : list ascii := replicate 255 "#"%char.

(** * Properties *)

(** ** [strcmp] and [get_key_value] *)

Lemma code_inj (x y : ascii) : code x = code y -> x = y.
Proof.
  unfold code. intros H. apply Nat2Z.inj in H.
  rewrite <- (ascii_nat_embedding x), <- (ascii_nat_embedding y). by rewrite H.
Qed.

Lemma code_NUL (x : ascii) : code x = 0 -> x = NUL.
Proof. intros H. by apply code_inj. Qed.

(** On strings, [strcmp] is zero exactly when they are the same. *)
Lemma strcmp_eq_0 (a b : list ascii) :
  NUL ∉ a -> NUL ∉ b -> strcmp a b = 0 <-> a = b.
Proof.
  revert b. induction a as [|x a IH]; intros [|y b] Ha Hb; simpl.
  - done.
  - split; [|done]. intros H. assert (y = NUL) as -> by (apply code_NUL; lia).
    exfalso. apply Hb. left.
  - split; [|done]. intros H. apply code_NUL in H as ->. exfalso. apply Ha. left.
  - apply not_elem_of_cons in Ha as [_ Ha]. apply not_elem_of_cons in Hb as [_ Hb].
    case_bool_decide as Hxy.
    + subst y. rewrite (IH b Ha Hb). split; [by intros ->|by intros [= ->]].
    + split; [|by intros [= ? ?]]. intros H. exfalso. apply Hxy, code_inj. lia.
Qed.

Lemma key_string_NUL (k : field) : NUL ∉ key_string k.
Proof. destruct k; compute_done. Qed.

Lemma key_string_NL (k : field) : NL ∉ key_string k.
Proof. destruct k; compute_done. Qed.

Lemma key_string_EQS (k : field) : EQS ∉ key_string k.
Proof. destruct k; compute_done. Qed.

Lemma key_string_nonempty (k : field) : key_string k <> [].
Proof. by destruct k. Qed.

Section GetKeyValueFacts.

Variable h : header.

Lemma get_key_value_key (k : field) : get_key_value h (key_string k) = tag h k.
Proof. by destruct k. Qed.

(** The chain of comparisons finds the key, or ends in [-1]. *)
Lemma get_key_value_cases (s : list ascii) :
  NUL ∉ s ->
  (exists k, s = key_string k /\ get_key_value h s = tag h k) \/
  ((forall k, s <> key_string k) /\ get_key_value h s = -1).
Proof.
  intros Hs.
  assert (forall k, strcmp s (key_string k) = 0 <-> s = key_string k) as Hcmp.
  { intros k. apply strcmp_eq_0; [done|apply key_string_NUL]. }
  unfold get_key_value.
  repeat lazymatch goal with
  | |- context [strcmp s ?key =? 0] =>
      destruct (Z.eqb_spec (strcmp s key) 0) as [Heq|?];
      [left;
       first [ apply (Hcmp F_name) in Heq | apply (Hcmp F_purpose) in Heq
             | apply (Hcmp F_numkey) in Heq | apply (Hcmp F_auth_pubkey_path) in Heq
             | apply (Hcmp F_entity_privkey_path) in Heq
             | apply (Hcmp F_auth_ip_addr) in Heq | apply (Hcmp F_auth_port_num) in Heq
             | apply (Hcmp F_entity_server_ip_addr) in Heq
             | apply (Hcmp F_entity_server_port_num) in Heq
             | apply (Hcmp F_network_protocol) in Heq ];
       eexists; split; [exact Heq|reflexivity] |]
  end.
  right. split; [|done]. intros k Hk. apply Hcmp in Hk. by destruct k.
Qed.

Lemma get_key_value_unknown (s : list ascii) :
  NUL ∉ s -> (forall k, s <> key_string k) -> get_key_value h s = -1.
Proof.
  intros Hs Hne. destruct (get_key_value_cases s Hs) as [(k & -> & _)|[_ ?]]; [|done].
  by destruct (Hne k).
Qed.

End GetKeyValueFacts.

(** C6. [get_key_value] is a function of the string alone (it takes no
    record, and the embedding is a total function). For every header whose
    constants are pairwise different and different from [-1], and every
    string: the value of a constant is returned exactly when the string is
    that constant's key name, character for character; two different key
    names give two different values; and [-1] is returned exactly when the
    string is none of the ten key names. *)
Theorem get_key_value_exact (h : header) (s : list ascii) :
  header_ok h -> NUL ∉ s ->
  (forall k, get_key_value h s = tag h k <-> s = key_string k) /\
  (forall k1 k2, k1 <> k2 ->
     get_key_value h (key_string k1) <> get_key_value h (key_string k2)) /\
  (get_key_value h s = -1 <-> forall k, s <> key_string k).
Proof.
  intros Hh Hs. split; [|split].
  - intros k. split.
    + intros Hk. destruct (get_key_value_cases h s Hs) as [(k' & -> & Hk')|[_ Hk']].
      * rewrite Hk' in Hk. by rewrite (tag_inj h Hh _ _ Hk).
      * rewrite Hk' in Hk. by destruct (tag_not_unmatched h Hh k).
    + intros ->. apply get_key_value_key.
  - intros k1 k2 Hne. rewrite !get_key_value_key. intros Heq.
    by apply Hne, (tag_inj h Hh).
  - split.
    + intros Hm k ->. rewrite get_key_value_key in Hm.
      by destruct (tag_not_unmatched h Hh k).
    + by apply get_key_value_unknown.
Qed.

(** ** Reasoning about runs *)

Lemma ends_in_ret {A} (R : state -> state -> Prop) (a : A) :
  (forall s, R s s) -> ends_in R (ret a).
Proof. intros HR s. apply HR. Qed.

Lemma ends_in_bind {A B} (R : state -> state -> Prop) (m : M A) (f : A -> M B) :
  (forall s1 s2 s3, R s1 s2 -> R s2 s3 -> R s1 s3) ->
  ends_in R m -> (forall a, ends_in R (f a)) -> ends_in R (bind m f).
Proof.
  intros Htrans Hm Hf s. unfold bind. specialize (Hm s).
  destruct (m s) as [a s'| |]; [|done..].
  specialize (Hf a s'). destruct (f a s'); eauto.
Qed.

Section Frames.

Variable h : header.
Variable R : state -> state -> Prop.

Section Tokenize.

Hypothesis HR : tokenize_closed h R.

Lemma ends_in_strtok str delim : ends_in R (strtok str delim).
Proof.
  pose proof (tc_trans h R HR) as Htrans. pose proof (tc_refl h R HR) as Hrefl.
  pose proof (tc_save h R HR) as Hsave. pose proof (tc_buffer h R HR) as Hbuf.
  pose proof (tc_strtok h R HR) as Hev.
  intros s. unfold strtok. repeat case_match; simplify_eq; eauto.
Qed.

Lemma ends_in_read_string p : ends_in R (read_string p).
Proof. intros s. unfold read_string. repeat case_match; simplify_eq; apply (tc_refl h R HR). Qed.

Lemma ends_in_printf before arg after : ends_in R (printf before arg after).
Proof.
  apply ends_in_bind; [apply (tc_trans h R HR)|apply ends_in_read_string|].
  intros t s. apply (tc_printf h R HR).
Qed.

Lemma ends_in_memcpy k src : ends_in R (memcpy h k src).
Proof.
  intros s. unfold memcpy. repeat case_match; simplify_eq; try apply (tc_refl h R HR).
  eapply (tc_trans h R HR); [|apply (tc_memcpy h R HR)].
  apply (tc_member h R HR). rewrite length_take, length_drop. lia.
Qed.

Lemma ends_in_case_body k : ends_in R (case_body h k).
Proof.
  apply ends_in_bind; [apply (tc_trans h R HR)|apply ends_in_strtok|]. intros p.
  apply ends_in_bind; [apply (tc_trans h R HR)|apply ends_in_printf|]. intros _.
  apply ends_in_memcpy.
Qed.

Lemma ends_in_switch v : ends_in R (switch h v).
Proof.
  unfold switch.
  repeat case_match; first [apply ends_in_case_body|apply ends_in_ret, (tc_refl h R HR)].
Qed.

Lemma ends_in_tokenize pline : ends_in R (tokenize h pline).
Proof.
  apply ends_in_bind; [apply (tc_trans h R HR)|apply ends_in_strtok|]. intros [p|].
  - apply ends_in_bind; [apply (tc_trans h R HR)|apply ends_in_read_string|].
    intros key. apply ends_in_switch.
  - apply ends_in_ret, (tc_refl h R HR).
Qed.

End Tokenize.

Section Loop.

Hypothesis HR : loop_closed h R.

Lemma ends_in_feof : ends_in R feof.
Proof. intros s. unfold feof. repeat case_match; simplify_eq; apply (tc_refl h R HR). Qed.

Lemma ends_in_fgets n : ends_in R (fgets n).
Proof.
  intros s. unfold fgets. destruct (fp s) as [f|] eqn:Hf; [|apply (tc_refl h R HR)].
  destruct (read_line (n - 1) (unread f)) as [[l r] e].
  destruct (e && bool_decide (l = [])).
  - eapply (tc_trans h R HR); [by apply (lc_stream h R HR)|apply (lc_fgets h R HR)].
  - eapply (tc_trans h R HR); [by apply (lc_stream h R HR)|].
    eapply (tc_trans h R HR); [apply (tc_buffer h R HR)|apply (lc_fgets h R HR)].
Qed.

Lemma ends_in_loop_body : ends_in R (loop_body h).
Proof.
  apply ends_in_bind; [apply (tc_trans h R HR)|apply ends_in_fgets|].
  intros pline. apply ends_in_tokenize, HR.
Qed.

Lemma ends_in_while fuel : ends_in R (while_not_feof h fuel).
Proof.
  induction fuel as [|fuel IH]; intros s; simpl; [apply (tc_refl h R HR)|].
  revert s. apply ends_in_bind; [apply (tc_trans h R HR)|apply ends_in_feof|].
  intros [|]; [apply ends_in_ret, (tc_refl h R HR)|].
  apply ends_in_bind; [apply (tc_trans h R HR)|apply ends_in_loop_body|done].
Qed.

End Loop.

End Frames.

(** ** What [fgets] takes from the stream *)

Lemma read_line_progress (n : nat) (s l r : list ascii) :
  (1 <= n)%nat -> read_line n s = (l, r, false) -> (length r < length s)%nat.
Proof.
  revert s l r. induction n as [|n IH]; intros s l r Hn Hr; [lia|].
  destruct s as [|ch s]; simpl in Hr; [done|].
  case_bool_decide; simplify_eq/=; [lia|].
  destruct (read_line n s) as [[l' r'] e'] eqn:Hrec. simplify_eq.
  destruct n as [|n]; [simpl in Hrec; simplify_eq; lia|].
  apply IH in Hrec; lia.
Qed.

(** In a stream that ends with a newline the end is never hit while a line
    is read, and what is left ends with a newline again, or is empty. *)
Lemma read_line_newline_ended (n : nat) (s l r : list ascii) (e : bool) :
  last s = Some NL -> read_line n s = (l, r, e) ->
  e = false /\ (r = [] \/ last r = Some NL).
Proof.
  revert s l r e. induction n as [|n IH]; intros s l r e Hlast Hr; simpl in Hr.
  - simplify_eq. eauto.
  - destruct s as [|ch s]; [done|].
    case_bool_decide.
    + simplify_eq. split; [done|]. destruct r as [|x r]; [by left|].
      right. by rewrite last_cons_cons in Hlast.
    + destruct (read_line n s) as [[l' r'] e'] eqn:Hrec. simplify_eq.
      destruct s as [|x s]; [by simplify_eq/=|].
      rewrite last_cons_cons in Hlast. eauto.
Qed.

(** A whole line that fits is taken together with its newline. *)
Lemma read_line_line (n : nat) (l r : list ascii) :
  NL ∉ l -> (length l < n)%nat -> read_line n (l ++ NL :: r) = (l ++ [NL], r, false).
Proof.
  revert n. induction l as [|ch l IH]; intros n Hl Hn; simpl in *.
  - destruct n; [lia|]. done.
  - destruct n; [lia|]. simpl. apply not_elem_of_cons in Hl as [? ?].
    rewrite bool_decide_eq_false_2 by done. rewrite IH; [done..|lia].
Qed.

(** The last line, when no newline ends it: the end of the stream is hit. *)
Lemma read_line_last (n : nat) (l : list ascii) :
  NL ∉ l -> (length l < n)%nat -> read_line n l = (l, [], true).
Proof.
  revert n. induction l as [|ch l IH]; intros n Hl Hn; simpl in *.
  - destruct n; [lia|]. done.
  - destruct n; [lia|]. simpl. apply not_elem_of_cons in Hl as [? ?].
    rewrite bool_decide_eq_false_2 by done. rewrite IH; [done..|lia].
Qed.

(** ** The loop ends *)

Lemma never_out_of_fuel_bind {A B} (m : M A) (f : A -> M B) :
  never_out_of_fuel m -> (forall a, never_out_of_fuel (f a)) ->
  never_out_of_fuel (bind m f).
Proof.
  intros Hm Hf s. unfold bind. specialize (Hm s).
  destruct (m s) as [a s'| |]; [apply Hf|done..].
Qed.

Lemma never_out_of_fuel_strtok str delim : never_out_of_fuel (strtok str delim).
Proof. intros s. unfold strtok. by repeat case_match. Qed.

Lemma never_out_of_fuel_read_string p : never_out_of_fuel (read_string p).
Proof. intros s. unfold read_string. by repeat case_match. Qed.

Lemma never_out_of_fuel_tokenize h pline : never_out_of_fuel (tokenize h pline).
Proof.
  assert (forall k, never_out_of_fuel (case_body h k)) as Hcase.
  { intros k. apply never_out_of_fuel_bind; [apply never_out_of_fuel_strtok|].
    intros p. apply never_out_of_fuel_bind.
    - apply never_out_of_fuel_bind; [apply never_out_of_fuel_read_string|done].
    - intros _ s. unfold memcpy. by repeat case_match. }
  apply never_out_of_fuel_bind; [apply never_out_of_fuel_strtok|].
  intros [p|]; [|done].
  apply never_out_of_fuel_bind; [apply never_out_of_fuel_read_string|].
  intros key. unfold switch. by repeat case_match.
Qed.

Lemma never_out_of_fuel_fgets n : never_out_of_fuel (fgets n).
Proof.
  intros s. unfold fgets. destruct (fp s); [|done].
  destruct (read_line _ _) as [[l r] e]. by destruct (e && _).
Qed.

Lemma same_stream_closed (h : header) : tokenize_closed h same_stream.
Proof.
  split; unfold same_stream; simpl.
  - intros s. split; [done|]. exists []. by rewrite app_nil_r.
  - intros s1 s2 s3 [-> [e1 ->]] [-> [e2 ->]]. split; [done|].
    exists (e1 ++ e2). by rewrite app_assoc.
  - intros. split; [done|]. exists []. by rewrite app_nil_r.
  - intros. split; [done|]. exists []. by rewrite app_nil_r.
  - intros. split; [done|]. exists []. by rewrite app_nil_r.
  - intros. split; [done|]. by eexists.
  - intros. split; [done|]. by eexists.
  - intros. split; [done|]. by eexists.
Qed.

Lemma loop_body_iterations_left (h : header) (s s' : state) :
  (2 <= MAX h)%nat -> iterations_left s <> 0%nat ->
  loop_body h s = Ok tt s' -> (iterations_left s' < iterations_left s)%nat.
Proof.
  intros HMAX Hleft Hbody. unfold loop_body, bind in Hbody.
  destruct (fgets (MAX h) s) as [pline s1| |] eqn:Hfgets; [|done..].
  pose proof (ends_in_tokenize h _ (same_stream_closed h) pline s1) as Htok.
  rewrite Hbody in Htok. destruct Htok as [Hfp _].
  unfold iterations_left in *. rewrite Hfp. clear Hbody Hfp s'.
  unfold fgets in Hfgets. destruct (fp s) as [f|]; [|done].
  destruct (eof_indicator f); [done|].
  destruct (read_line (MAX h - 1) (unread f)) as [[l r] e] eqn:Hread.
  assert (match fp s1 with
          | Some f' => unread f' = r /\ eof_indicator f' = e
          | None => False
          end) as Hs1.
  { destruct (e && _); by simplify_eq/=. }
  destruct (fp s1) as [f'|]; [|done]. destruct Hs1 as [-> ->].
  destruct e; [lia|]. apply read_line_progress in Hread; lia.
Qed.

Lemma while_ends (h : header) (fuel : nat) (s : state) :
  (2 <= MAX h)%nat -> (iterations_left s < fuel)%nat ->
  match while_not_feof h fuel s with OutOfFuel _ => False | _ => True end.
Proof.
  intros HMAX. revert s. induction fuel as [|fuel IH]; intros s Hfuel; [lia|].
  simpl. unfold bind at 1. unfold feof.
  destruct (fp s) as [f|] eqn:Hf; [|done].
  destruct (eof_indicator f) eqn:Heof; [done|].
  unfold bind.
  assert (never_out_of_fuel (loop_body h)) as Hbody.
  { apply never_out_of_fuel_bind;
      [apply never_out_of_fuel_fgets|apply never_out_of_fuel_tokenize]. }
  specialize (Hbody s).
  destruct (loop_body h s) as [[] s'| |] eqn:Hloop; [|done..].
  apply IH. apply loop_body_iterations_left in Hloop; [lia|done|].
  unfold iterations_left. by rewrite Hf, Heof.
Qed.

(** ** [strtok] on a buffer of known shape *)

Lemma c_str_app (t post : list ascii) :
  NUL ∉ t -> c_str (t ++ NUL :: post) = Some t.
Proof.
  induction t as [|ch t IH]; intros Ht; simpl; [done|].
  apply not_elem_of_cons in Ht as [? ?].
  rewrite bool_decide_eq_false_2 by done. by rewrite IH.
Qed.

Lemma c_str_unterminated (t : list ascii) : NUL ∉ t -> c_str t = None.
Proof.
  induction t as [|ch t IH]; intros Ht; simpl; [done|].
  apply not_elem_of_cons in Ht as [? ?].
  rewrite bool_decide_eq_false_2 by done. by rewrite IH.
Qed.

Lemma strspn_none (ch : ascii) (r delim : list ascii) :
  ch ∉ delim -> strspn (ch :: r) delim = 0%nat.
Proof.
  intros Hch. simpl. case_bool_decide; [done|]. by rewrite bool_decide_eq_false_2.
Qed.

Lemma strcspn_token (tok : list ascii) (d : ascii) (post delim : list ascii) :
  NUL ∉ tok -> (forall ch, ch ∈ tok -> ch ∉ delim) -> d = NUL \/ d ∈ delim ->
  strcspn (tok ++ d :: post) delim = length tok.
Proof.
  intros Hnul Htok Hd. induction tok as [|ch tok IH]; simpl.
  - case_bool_decide; [done|]. destruct Hd as [?|?]; [done|].
    by rewrite bool_decide_eq_true_2.
  - apply not_elem_of_cons in Hnul as [? ?].
    rewrite bool_decide_eq_false_2 by done.
    rewrite bool_decide_eq_false_2 by (apply Htok; left).
    rewrite IH; [done..|]. intros c Hc. apply Htok. by right.
Qed.

(** At the end of the string: null. *)
Lemma strtok_at_end (str : ptr) (delim : list ascii) (s : state) (p : nat) :
  scan_start str s = Some p -> buffer s !! p = Some NUL ->
  strtok str delim s
  = Ok None (emit (Strtok str delim None) (set_strtok_save (Some p) s)).
Proof.
  intros Hstart Hp. unfold strtok. cbv zeta.
  destruct str as [q|]; simpl in Hstart; [injection Hstart as ->|rewrite Hstart];
    rewrite Hp; by rewrite bool_decide_eq_true_2.
Qed.

(** The three characters [strtok] looks at when a token starts right at
    the place the scan starts. *)
Lemma token_lookups (pre tok : list ascii) (d : ascii) (post delim : list ascii) :
  tok <> [] -> NUL ∉ tok -> (forall ch, ch ∈ tok -> ch ∉ delim) ->
  d = NUL \/ d ∈ delim ->
  let buf := pre ++ tok ++ d :: post in
  exists ch,
    buf !! length pre = Some ch /\ ch <> NUL /\
    strspn (drop (length pre) buf) delim = 0%nat /\
    strcspn (drop (length pre) buf) delim = length tok /\
    buf !! (length pre + length tok)%nat = Some d.
Proof.
  intros Hne Hnul Htok Hd buf. unfold buf.
  rewrite drop_app_length.
  assert ((pre ++ tok ++ d :: post) !! (length pre + length tok)%nat = Some d) as Hd'.
  { rewrite app_assoc. apply list_lookup_middle. by rewrite length_app. }
  assert (strcspn (tok ++ d :: post) delim = length tok) as Hspan
    by by apply strcspn_token.
  destruct tok as [|ch tok]; [done|]. exists ch.
  split; [by apply list_lookup_middle|].
  split; [by apply not_elem_of_cons in Hnul as [? ?]|].
  split; [apply strspn_none, Htok; left|done].
Qed.

(** A token that runs up to the end of the string. *)
Lemma strtok_last_token (str : ptr) (delim : list ascii) (s : state)
    (pre tok post : list ascii) :
  scan_start str s = Some (length pre) ->
  buffer s = pre ++ tok ++ NUL :: post ->
  tok <> [] -> NUL ∉ tok -> (forall ch, ch ∈ tok -> ch ∉ delim) ->
  strtok str delim s
  = Ok (Some (length pre))
       (emit (Strtok str delim (Some (length pre)))
          (set_strtok_save (Some (length pre + length tok)%nat) s)).
Proof.
  intros Hstart Hbuf Hne Hnul Htok.
  destruct (token_lookups pre tok NUL post delim Hne Hnul Htok (or_introl eq_refl))
    as (ch & H1 & Hch & H2 & H3 & H4).
  rewrite <- Hbuf in H1, H2, H3, H4.
  unfold strtok. cbv zeta.
  destruct str as [q|]; simpl in Hstart; [injection Hstart as ->|rewrite Hstart];
    rewrite H1; rewrite bool_decide_eq_false_2 by done;
    rewrite H2, Nat.add_0_r, H1; rewrite bool_decide_eq_false_2 by done;
    rewrite H3, H4; by rewrite bool_decide_eq_true_2.
Qed.

(** A token that a delimiter ends: the delimiter becomes a terminator. *)
Lemma strtok_token (str : ptr) (delim : list ascii) (s : state)
    (pre tok : list ascii) (d : ascii) (post : list ascii) :
  scan_start str s = Some (length pre) ->
  buffer s = pre ++ tok ++ d :: post ->
  tok <> [] -> NUL ∉ tok -> (forall ch, ch ∈ tok -> ch ∉ delim) ->
  d ∈ delim -> d <> NUL ->
  strtok str delim s
  = Ok (Some (length pre))
       (emit (Strtok str delim (Some (length pre)))
          (set_strtok_save (Some (S (length pre + length tok)))
             (set_buffer (pre ++ tok ++ NUL :: post) s))).
Proof.
  intros Hstart Hbuf Hne Hnul Htok Hd HdNUL.
  destruct (token_lookups pre tok d post delim Hne Hnul Htok (or_intror Hd))
    as (ch & H1 & Hch & H2 & H3 & H4).
  assert (<[(length pre + length tok)%nat := NUL]> (buffer s)
          = pre ++ tok ++ NUL :: post) as Hins.
  { rewrite Hbuf, !app_assoc, <- length_app.
    rewrite <- (Nat.add_0_r (length (pre ++ tok))). by rewrite insert_app_r. }
  rewrite <- Hbuf in H1, H2, H3, H4.
  unfold strtok. cbv zeta.
  destruct str as [q|]; simpl in Hstart; [injection Hstart as ->|rewrite Hstart];
    rewrite H1; rewrite bool_decide_eq_false_2 by done;
    rewrite H2, Nat.add_0_r, H1; rewrite bool_decide_eq_false_2 by done;
    rewrite H3, H4; rewrite bool_decide_eq_false_2 by done; by rewrite Hins.
Qed.

Lemma read_string_at (s : state) (pre t post : list ascii) :
  buffer s = pre ++ t ++ NUL :: post -> NUL ∉ t ->
  read_string (Some (length pre)) s = Ok t s.
Proof.
  intros Hbuf Ht. unfold read_string. rewrite Hbuf, drop_app_length.
  by rewrite c_str_app.
Qed.

(** [fgets] on a line that fits. *)
Lemma fgets_line (n : nat) (s : state) (f : FILE) (l r : list ascii) :
  fp s = Some f -> unread f = l ++ NL :: r -> NL ∉ l -> (length l + 1 < n)%nat ->
  fgets n s
  = Ok (Some 0%nat)
       (emit (Fgets (Some 0%nat))
          (set_buffer ((l ++ [NL]) ++ NUL :: drop (S (length (l ++ [NL]))) (buffer s))
             (set_fp (Some {| unread := r; eof_indicator := eof_indicator f || false;
                              is_open := is_open f |}) s))).
Proof.
  intros Hf Hu Hl Hn. unfold fgets. rewrite Hf, Hu.
  rewrite read_line_line; [|done|lia]. done.
Qed.

Section Switch.

Variable h : header.
Hypothesis Hh : header_ok h.

Lemma switch_tag (k : field) : switch h (tag h k) = case_body h k.
Proof.
  assert (forall k', k <> k' -> (tag h k =? tag h k') = false) as Hne.
  { intros k' Hk. apply Z.eqb_neq. intros E. by apply Hk, (tag_inj h Hh). }
  unfold switch, ENTITY_INFO_NAME, ENTITY_INFO_PURPOSE, ENTITY_INFO_NUMKEY,
    AUTH_INFO_PUBKEY_PATH, ENTITY_INFO_PRIVKEY_PATH, AUTH_INFO_IP_ADDRESS,
    AUTH_INFO_PORT, ENTITY_SERVER_INFO_IP_ADDRESS, ENTITY_SERVER_INFO_PORT_NUMBER,
    NETWORK_PROTOCOL.
  destruct k; repeat first [rewrite Z.eqb_refl | rewrite Hne by done]; done.
Qed.

Lemma switch_unmatched : switch h (-1) = ret tt.
Proof.
  assert (forall k', (-1 =? tag h k') = false) as Hne.
  { intros k'. apply Z.eqb_neq. intros E. by apply (tag_not_unmatched h Hh k'). }
  unfold switch, ENTITY_INFO_NAME, ENTITY_INFO_PURPOSE, ENTITY_INFO_NUMKEY,
    AUTH_INFO_PUBKEY_PATH, ENTITY_INFO_PRIVKEY_PATH, AUTH_INFO_IP_ADDRESS,
    AUTH_INFO_PORT, ENTITY_SERVER_INFO_IP_ADDRESS, ENTITY_SERVER_INFO_PORT_NUMBER,
    NETWORK_PROTOCOL.
  by rewrite !Hne.
Qed.

End Switch.

(** ** Configuration files made of lines the loader handles *)

Lemma field_of_key_key_string (k : field) : field_of_key (key_string k) = Some k.
Proof. by destruct k. Qed.

Lemma field_of_key_Some (key : list ascii) (k : field) :
  field_of_key key = Some k <-> key = key_string k.
Proof.
  split; [|intros ->; apply field_of_key_key_string].
  intros Hk. unfold field_of_key in Hk. apply head_Some_elem_of in Hk.
  by apply list_elem_of_filter in Hk as [-> _].
Qed.

Lemma field_of_key_None (key : list ascii) :
  field_of_key key = None <-> forall k, key <> key_string k.
Proof.
  split.
  - intros Hnone k ->. by rewrite field_of_key_key_string in Hnone.
  - intros Hne. destruct (field_of_key key) as [k|] eqn:Hk; [|done].
    apply field_of_key_Some in Hk. by destruct (Hne k).
Qed.

Lemma printed_app (e1 e2 : list event) : printed (e1 ++ e2) = printed e1 ++ printed e2.
Proof. apply omap_app. Qed.

Ltac chars :=
  unfold NUL, NL, SP, EQS in *;
  repeat match goal with
  | H : _ ∉ _ ++ _ |- _ => apply not_elem_of_app in H as [? ?]
  | H : _ ∉ _ :: _ |- _ => apply not_elem_of_cons in H as [? ?]
  | H : _ ∈ _ ++ _ |- _ => apply elem_of_app in H as [?|?]
  | H : _ ∈ _ :: _ |- _ => apply elem_of_cons in H as [?|?]
  | H : _ ∈ [] |- _ => by apply elem_of_nil in H
  | |- _ ∉ _ ++ _ => apply not_elem_of_app; split
  | |- _ ∉ _ :: _ => apply not_elem_of_cons; split
  | |- _ ∉ [] => apply not_elem_of_nil
  | |- forall _, _ => intros
  | |- _ <> _ => intros ?
  end;
  subst; try done; try congruence.

Section LineByLine.

Variable h : header.
Hypothesis Hh : header_ok h.

(** A line without ['=']: one token, which is no key. *)
Lemma tokenize_plain (s : state) (tok junk : list ascii) :
  buffer s = tok ++ NUL :: junk -> tok <> [] -> NUL ∉ tok -> EQS ∉ tok ->
  (forall k, tok <> key_string k) ->
  exists s',
    tokenize h (Some 0%nat) s = Ok tt s' /\ tokenized s s' (c_obj s) [] /\
    buffer s' = buffer s /\ strtok_save s' = Some (length tok).
Proof.
  intros Hbuf Hne Hnul Heq Hkey.
  unfold tokenize, bind.
  rewrite (strtok_last_token (Some 0%nat) [EQS] s [] tok junk);
    [|done|done|done|done|chars].
  simpl length.
  rewrite (read_string_at _ [] tok junk); [|done|done].
  rewrite get_key_value_unknown; [|done|done].
  rewrite (switch_unmatched h Hh). eexists. split; [done|].
  split; [|done]. split; [done|]. split; [done|]. split; [done|].
  simpl. by rewrite printed_app.
Qed.

(** A line with a key: the first token is the key, and [switch] gets
    what [get_key_value] makes of it. *)
Lemma tokenize_key (s : state) (key post : list ascii) :
  buffer s = key ++ EQS :: post -> key <> [] -> NUL ∉ key -> EQS ∉ key ->
  tokenize h (Some 0%nat) s
  = switch h (get_key_value h key)
      (emit (Strtok (Some 0%nat) [EQS] (Some 0%nat))
         (set_strtok_save (Some (S (length key)))
            (set_buffer (key ++ NUL :: post) s))).
Proof.
  intros Hbuf Hne Hnul Heq. unfold tokenize, bind.
  rewrite (strtok_token (Some 0%nat) [EQS] s [] key EQS post);
    [|done|done|done|done|chars|by left|chars].
  simpl length. simpl app.
  by rewrite (read_string_at _ [] key post).
Qed.

(** The statements of a [case], when the value runs up to the end of the
    string. *)
Lemma case_body_last_token (k : field) (s : state) (pre tok junk : list ascii) :
  buffer s = pre ++ tok ++ NUL :: junk -> strtok_save s = Some (length pre) ->
  tok <> [] -> NUL ∉ tok -> SP ∉ tok ->
  (length pre + sizeof h k <= length (buffer s))%nat ->
  exists s',
    case_body h k s = Ok tt s' /\
    tokenized s s' (set_member k (take (sizeof h k) (tok ++ NUL :: junk)) (c_obj s))
      [progress_line k tok] /\
    buffer s' = buffer s /\ strtok_save s' = Some (length pre + length tok)%nat.
Proof.
  intros Hbuf Hsave Hne Hnul Hsp Hsize. unfold case_body, bind.
  rewrite (strtok_last_token None [SP] s pre tok junk); [|done|done|done|done|chars].
  unfold printf, bind.
  rewrite (read_string_at _ pre tok junk); [|done|done].
  unfold modify, memcpy. simpl buffer.
  rewrite decide_True by done.
  eexists. split; [done|]. split; [|done]. split; [done|]. split; [done|].
  split.
  - simpl. by rewrite Hbuf, drop_app_length.
  - simpl. rewrite !printed_app. simpl. by rewrite app_nil_r, <- app_assoc.
Qed.

(** The statements of a [case], when a space ends the value. *)
Lemma case_body_token (k : field) (s : state) (pre tok post : list ascii) :
  buffer s = pre ++ tok ++ SP :: post -> strtok_save s = Some (length pre) ->
  tok <> [] -> NUL ∉ tok -> SP ∉ tok ->
  (length pre + sizeof h k <= length (buffer s))%nat ->
  exists s',
    case_body h k s = Ok tt s' /\
    tokenized s s' (set_member k (take (sizeof h k) (tok ++ NUL :: post)) (c_obj s))
      [progress_line k tok] /\
    buffer s' = pre ++ tok ++ NUL :: post /\
    strtok_save s' = Some (S (length pre + length tok)).
Proof.
  intros Hbuf Hsave Hne Hnul Hsp Hsize. unfold case_body, bind.
  assert (length (pre ++ tok ++ NUL :: post) = length (buffer s))
    as Hlen by (by rewrite Hbuf, !length_app).
  rewrite (strtok_token None [SP] s pre tok SP post);
    [|done|done|done|done|chars|by left|chars].
  unfold printf, bind.
  rewrite (read_string_at _ pre tok post); [|done|done].
  unfold modify, memcpy. simpl buffer.
  rewrite decide_True by (by rewrite Hlen).
  eexists. split; [done|]. split; [|done]. split; [done|]. split; [done|].
  split.
  - simpl. by rewrite drop_app_length.
  - simpl. rewrite !printed_app. simpl. by rewrite app_nil_r, <- app_assoc.
Qed.

(** [fgets] on a line that fits: with its newline, or up to the end of the
    file. *)
Lemma fgets_line_state (s : state) (body r : list ascii) (nl : bool) :
  reading s (body ++ eol nl ++ r) -> NL ∉ body -> (length body + 1 < MAX h)%nat ->
  (nl = false -> r = [] /\ body <> []) ->
  length (buffer s) = MAX h ->
  exists s1 junk,
    fgets (MAX h) s = Ok (Some 0%nat) s1 /\
    buffer s1 = body ++ eol nl ++ NUL :: junk /\
    (if nl then reading s1 r else at_eof s1) /\
    c_obj s1 = c_obj s /\ printed (events s1) = printed (events s) /\
    length (buffer s1) = MAX h.
Proof.
  intros Hread Hnl Hfit Hlast Hlen. destruct nl; simpl in *.
  - rewrite (fgets_line (MAX h) s _ body r Hread); [|done..].
    eexists. exists (drop (S (length (body ++ [NL]))) (buffer s)).
    split; [done|]. simpl. split; [by rewrite <- app_assoc|]. split; [done|].
    split; [done|]. split; [by rewrite printed_app, app_nil_r|].
    rewrite !length_app. simpl. rewrite length_drop. lia.
  - destruct Hlast as [-> Hne]; [done|]. rewrite app_nil_r in Hread.
    unfold fgets. rewrite Hread. simpl.
    rewrite read_line_last; [|done|lia]. simpl.
    rewrite bool_decide_eq_false_2 by done.
    eexists. exists (drop (S (length body)) (buffer s)).
    split; [done|]. simpl. split; [done|]. split; [done|].
    split; [done|]. split; [by rewrite printed_app, app_nil_r|].
    rewrite !length_app. simpl. rewrite length_drop. lia.
Qed.

(** One round of the loop on a line of the kind described. *)
Lemma loop_body_line (s : state) (l : line) (r : list ascii) :
  line_ok h l -> length (buffer s) = MAX h -> reading s (render l ++ r) ->
  (ends_with_newline l = false -> r = []) ->
  exists s',
    loop_body h s = Ok tt s' /\
    (if ends_with_newline l then reading s' r /\ resume_harmless s' else at_eof s') /\
    length (buffer s') = MAX h /\
    line_effect h l (c_obj s) (c_obj s') /\
    printed (events s') = printed (events s) ++ line_output l.
Proof.
  intros Hok Hlen Hread Hlast. unfold loop_body, bind.
  destruct l as [text nl|key value rest nl]; simpl in Hok, Hread, Hlast |- *.
  - destruct Hok as (Hnul & Hnl & Heq & Hfit & Hopen).
    rewrite <- app_assoc in Hread.
    destruct (fgets_line_state s text r nl Hread Hnl Hfit)
      as (s1 & junk & -> & Hbuf1 & Hread1 & Hc1 & Hp1 & Hlen1); [|done|].
    { intros ->. split; [by apply Hlast|]. by apply Hopen. }
    rewrite app_assoc in Hbuf1.
    destruct (tokenize_plain s1 (text ++ eol nl) junk Hbuf1)
      as (s' & -> & (Hfp & Hlen' & Hc & Hp) & Hbuf' & Hsave').
    { destruct nl; simpl; [by destruct text|]. rewrite app_nil_r. by apply Hopen. }
    { destruct nl; simpl; chars. }
    { destruct nl; simpl; chars. }
    { destruct nl; simpl.
      - intros k Hk. apply (key_string_NL k). rewrite <- Hk. apply elem_of_app. right. left.
      - rewrite app_nil_r. by apply field_of_key_None, Hopen. }
    exists s'. split; [done|]. split.
    { unfold reading, at_eof in *. rewrite Hfp. destruct nl; [|done]. split; [done|].
      exists (text ++ [NL]), [], junk. rewrite Hbuf', Hsave', Hbuf1. simpl.
      split; [done|]. split; [done|]. split; [apply not_elem_of_nil|].
      split; [apply not_elem_of_nil|by left]. }
    split; [congruence|]. split; [congruence|]. by rewrite Hp, Hp1.
  - destruct Hok as (Hne & Hknul & Hknl & Hkeq & Hvnul & Hvnl & Hrnul & Hrnl & Hreq
                     & Hrest & Hfit & Hkey).
    assert ((key ++ EQS :: value ++ rest ++ eol nl) ++ r
            = (key ++ EQS :: value ++ rest) ++ eol nl ++ r) as Hshape.
    { rewrite <- !app_assoc. simpl. by rewrite <- !app_assoc. }
    rewrite Hshape in Hread.
    destruct (fgets_line_state s (key ++ EQS :: value ++ rest) r nl Hread)
      as (s1 & junk & -> & Hbuf1 & Hread1 & Hc1 & Hp1 & Hlen1); [chars| | |done|].
    { rewrite !length_app. simpl. rewrite length_app. lia. }
    { intros ->. split; [by apply Hlast|]. by destruct key. }
    assert (buffer s1 = key ++ EQS :: value ++ rest ++ eol nl ++ NUL :: junk) as Hbuf1'.
    { rewrite Hbuf1, <- !app_assoc. simpl. by rewrite <- !app_assoc. }
    rewrite (tokenize_key s1 key _ Hbuf1' Hne Hknul Hkeq).
    set (s2 := emit _ _).
    assert (length (buffer s2) = MAX h) as Hlen2.
    { rewrite <- Hlen1, Hbuf1'. simpl. rewrite !length_app. simpl.
      by rewrite !length_app. }
    assert (fp s2 = fp s1) as Hfp2 by done.
    destruct (field_of_key key) as [k|] eqn:Hfield.
    + apply field_of_key_Some in Hfield as ->.
      destruct Hkey as (Hvsp & Htok & Hsize).
      rewrite get_key_value_key, (switch_tag h Hh).
      assert (rest = [] \/ exists more, rest = SP :: more) as [->|[more ->]].
      { destruct rest as [|ch more]; [by left|right].
        destruct Hrest as [?|[= ->]]; [done|by exists more]. }
      * simpl in Htok.
        destruct (case_body_last_token k s2 (key_string k ++ [NUL]) (value ++ eol nl) junk)
          as (s' & -> & (Hfp & Hlen' & Hc & Hp) & Hbuf' & Hsave').
        { simpl. by rewrite <- !app_assoc. }
        { simpl. rewrite length_app. simpl. f_equal. lia. }
        { done. }
        { destruct nl; simpl; chars. }
        { destruct nl; simpl; chars. }
        { rewrite Hlen2, length_app. simpl. lia. }
        exists s'. split; [done|]. split.
        { unfold reading, at_eof in *. rewrite Hfp, Hfp2. destruct nl; [|done].
          split; [done|].
          exists ((key_string k ++ [NUL]) ++ value ++ [NL]), [], junk.
          rewrite Hbuf', Hsave'. simpl. rewrite <- !app_assoc. simpl.
          split; [done|]. rewrite !length_app. simpl.
          rewrite ?length_app. simpl. split; [f_equal; lia|].
          split; [apply not_elem_of_nil|]. split; [apply not_elem_of_nil|by left]. }
        split; [congruence|].
        split; [exists junk; by rewrite Hc, <- Hc1|].
        rewrite Hp. simpl. by rewrite printed_app, Hp1, app_nil_r.
      * simpl in Htok.
        destruct (case_body_token k s2 (key_string k ++ [NUL]) value
                    (more ++ eol nl ++ NUL :: junk))
          as (s' & -> & (Hfp & Hlen' & Hc & Hp) & Hbuf' & Hsave').
        { simpl. by rewrite <- !app_assoc. }
        { simpl. rewrite length_app. simpl. f_equal. lia. }
        { done. }
        { done. }
        { done. }
        { rewrite Hlen2, length_app. simpl. lia. }
        exists s'. split; [done|]. split.
        { unfold reading, at_eof in *. rewrite Hfp, Hfp2. destruct nl; [|done].
          split; [done|].
          exists ((key_string k ++ [NUL]) ++ value ++ [NUL]), (more ++ [NL]), junk.
          rewrite Hbuf', Hsave'. simpl. rewrite <- !app_assoc. simpl.
          split; [done|]. rewrite !length_app. simpl.
          rewrite ?length_app. simpl. split; [f_equal; lia|].
          split; [chars|]. split; [chars|]. right. apply elem_of_app. right. left. }
        split; [congruence|].
        split; [eexists; by rewrite Hc, <- Hc1|].
        rewrite Hp. simpl. by rewrite printed_app, Hp1, app_nil_r.
    + rewrite get_key_value_unknown; [|done|by apply field_of_key_None].
      rewrite (switch_unmatched h Hh). exists s2. split; [done|]. split.
      { unfold reading, at_eof in *. rewrite Hfp2. destruct nl; [|done].
        split; [done|].
        exists (key ++ [NUL]), ((value ++ rest) ++ [NL]), junk. simpl.
        split; [by rewrite <- !app_assoc|].
        split; [rewrite length_app; simpl; f_equal; lia|].
        split; [chars|]. split; [chars|]. right. apply elem_of_app. right. left. }
      split; [done|]. split; [done|]. simpl. by rewrite printed_app, Hp1, !app_nil_r.
Qed.

(** The round after the last line, where [fgets] returns null and
    [strtok] resumes in the old buffer: nothing is found to act on. *)
Lemma tokenize_resume (s : state) :
  resume_harmless s ->
  exists s',
    tokenize h None s = Ok tt s' /\ fp s' = fp s /\ c_obj s' = c_obj s /\
    printed (events s') = printed (events s).
Proof.
  intros (pre & t & post & Hbuf & Hsave & Hnul & Heq & Ht). unfold tokenize, bind.
  destruct t as [|ch t].
  - rewrite (strtok_at_end None [EQS] s (length pre)); [|done|].
    2:{ rewrite Hbuf. by apply list_lookup_middle. }
    eexists. split; [done|]. simpl. by rewrite printed_app, app_nil_r.
  - destruct Ht as [?|Hnl]; [done|].
    rewrite (strtok_last_token None [EQS] s pre (ch :: t) post);
      [|done|done|done|done|chars].
    rewrite (read_string_at _ pre (ch :: t) post); [|done|done].
    rewrite get_key_value_unknown; [|done|].
    2:{ intros k Hk. apply (key_string_NL k). by rewrite <- Hk. }
    rewrite (switch_unmatched h Hh).
    eexists. split; [done|]. simpl. by rewrite printed_app, app_nil_r.
Qed.

Lemma fgets_at_end (s : state) :
  reading s [] ->
  fgets (MAX h) s
  = Ok None (emit (Fgets None)
               (set_fp (Some {| unread := []; eof_indicator := true;
                                is_open := true |}) s)).
Proof.
  intros Hread. unfold fgets. rewrite Hread. simpl.
  pose proof (MAX_ge_2 h Hh). destruct (MAX h - 1)%nat eqn:HM; [lia|]. done.
Qed.

End LineByLine.

(** ** The loop on a file of such lines *)

Lemma member_set_member (k k' : field) (v : list ascii) (c : config_t) :
  member k' (set_member k v c) = if decide (k = k') then v else member k' c.
Proof. by destruct k, k'. Qed.

Lemma render_nonempty (h : header) (l : line) : line_ok h l -> render l <> [].
Proof.
  destruct l as [text nl|key value rest nl]; simpl.
  - intros (_ & _ & _ & _ & Hopen). destruct nl; simpl; [by destruct text|].
    rewrite app_nil_r. by apply Hopen.
  - intros _. by destruct key.
Qed.

Lemma length_render_all (h : header) (ls : list line) :
  Forall (line_ok h) ls -> (length ls <= length (render_all ls))%nat.
Proof.
  induction ls as [|l ls IH]; intros Hok; [done|].
  apply Forall_cons in Hok as [Hl Hok]. unfold render_all in *.
  rewrite fmap_cons. change (concat (?x :: ?r)) with (x ++ concat r).
  rewrite length_app. simpl length at 1.
  pose proof (render_nonempty h l Hl). specialize (IH Hok).
  destruct (render l); [done|]. simpl. lia.
Qed.

Section Lines.

Variable h : header.
Hypothesis Hh : header_ok h.

Lemma members_after_nil (c : config_t) : members_after h [] c c.
Proof. by intros k. Qed.

Lemma members_after_cons (l : line) (ls : list line) (c c1 c' : config_t) :
  line_effect h l c c1 -> members_after h ls c1 c' -> members_after h (l :: ls) c c'.
Proof.
  intros Hl Hls k. specialize (Hls k). simpl.
  destruct (last_value k ls) as [tok|]; [done|].
  destruct l as [text nl|key value rest nl]; simpl in *; [by subst|].
  case_decide as Hkey.
  - subst key. rewrite field_of_key_key_string in Hl. destruct Hl as [junk ->].
    exists junk. rewrite Hls, member_set_member. by rewrite decide_True.
  - destruct (field_of_key key) as [k'|] eqn:Hk'; [|by subst].
    destruct Hl as [junk ->]. rewrite Hls, member_set_member.
    rewrite decide_False; [done|]. intros ->. by apply field_of_key_Some in Hk'.
Qed.

Lemma while_lines (ls : list line) (s : state) (fuel : nat) :
  file_ok h ls -> length (buffer s) = MAX h ->
  reading s (render_all ls) -> (ls = [] -> resume_harmless s) ->
  (length ls + 2 <= fuel)%nat ->
  exists s',
    while_not_feof h fuel s = Ok tt s' /\ at_eof s' /\
    members_after h ls (c_obj s) (c_obj s') /\
    printed (events s') = printed (events s) ++ concat (line_output <$> ls).
Proof.
  revert s fuel.
  induction ls as [|l ls IH]; intros s fuel [Hok Hterm] Hlen Hread Hres Hfuel.
  - destruct fuel as [|[|fuel]]; [simpl in Hfuel; lia..|].
    simpl. unfold bind at 1. unfold feof. rewrite Hread. simpl.
    unfold bind at 1. unfold loop_body, bind at 1.
    rewrite (fgets_at_end h Hh s Hread).
    destruct (tokenize_resume h Hh
      (emit (Fgets None)
         (set_fp (Some {| unread := []; eof_indicator := true; is_open := true |}) s)))
      as (s' & -> & Hfp & Hc & Hp); [by apply Hres|].
    unfold bind. rewrite Hfp. simpl. exists s'. split; [done|]. split; [done|].
    split; [intros k; simpl; by rewrite Hc|].
    rewrite Hp. simpl. by rewrite printed_app.
  - destruct fuel as [|fuel]; [simpl in Hfuel; lia|].
    apply Forall_cons in Hok as [Hl Hok]. destruct Hterm as [Hnl Hterm].
    simpl. unfold bind at 1. unfold feof. rewrite Hread. simpl.
    unfold bind at 1.
    destruct (loop_body_line h Hh s l (render_all ls) Hl Hlen Hread)
      as (s1 & -> & Hstream1 & Hlen1 & Heff & Hp1).
    { intros Hlast. destruct ls; [done|]. by rewrite Hnl in Hlast. }
    destruct (ends_with_newline l) eqn:Hends.
    + destruct Hstream1 as [Hread1 Hres1].
      destruct (IH s1 fuel) as (s' & -> & Hfp & Hmem & Hp);
        [done|done|done|done|simpl in Hfuel; lia|].
      exists s'. split; [done|]. split; [done|].
      split; [by eapply members_after_cons|].
      rewrite Hp, Hp1. simpl. by rewrite app_assoc.
    + assert (ls = []) as ->.
      { destruct ls; [done|]. assert (false = true) by (by apply Hnl). done. }
      destruct fuel as [|fuel]; [simpl in Hfuel; lia|].
      simpl. unfold bind at 1. unfold feof. rewrite Hstream1. simpl.
      exists s1. split; [done|]. split; [done|].
      split; [eapply members_after_cons; [done|apply members_after_nil]|].
      rewrite Hp1. simpl. by rewrite app_nil_r.
Qed.

(** A file of such lines: the loader returns; every member a line gave
    a value to holds the value the last such line gave, the others are as
    they were in the storage [malloc] returned; a progress line was
    printed for every line with a key the loader knows; the stream is
    closed. *)
Lemma load_lines (fs : file_system) (path : string) (heap : config_t) (ls : list line) :
  ls <> [] -> file_ok h ls -> fs path = Some (render_all ls) ->
  exists c s,
    load_config_t h fs path heap = Ok c s /\
    members_after h ls heap c /\
    printed (events s) = banner :: concat (line_output <$> ls) /\
    fp s = Some {| unread := []; eof_indicator := true; is_open := false |}.
Proof.
  intros Hne Hok Hfs. unfold load_config_t, initial_state, fopen, fuel_for. simpl.
  rewrite Hfs. simpl. unfold bind at 1. unfold printf0, modify.
  unfold bind at 1.
  match goal with
  | |- context [while_not_feof h ?fuel ?s0] =>
      destruct (while_lines ls s0 fuel) as (s' & -> & Hfp & Hmem & Hp)
  end; [done|apply length_replicate|done|done| |].
  { pose proof (length_render_all h ls (proj1 Hok)). lia. }
  unfold bind, fclose. rewrite Hfp. simpl.
  eexists _, _. split; [done|]. split; [done|]. split; [|done].
  simpl. rewrite printed_app, Hp. simpl. by rewrite app_nil_r.
Qed.

End Lines.

(** ** What holds on every run *)

Lemma keeps_open_closed (h : header) : loop_closed h keeps_open.
Proof.
  assert (forall e s, e <> Fclose -> keeps_open s (emit e s)) as Hemit.
  { intros e s He [Hf Hev]. split; [done|]. simpl. chars. }
  split; [split|..]; try (intros; by apply Hemit); unfold keeps_open; try done; auto.
  intros f l e s Hf [Hopen Hev]. split; [|done]. simpl. intros f' [= <-]. simpl. eauto.
Qed.

Lemma keeps_sized_closed (h : header) : loop_closed h (keeps_sized h).
Proof.
  split; [split|..]; unfold keeps_sized; try done; auto.
  intros k v s Hv Hs k'. simpl. rewrite member_set_member. by case_decide; subst.
Qed.

(** The loader and the end of the loop, for any file: it does not run on
    for ever, and up to [fclose] the stream stays open. *)
Lemma load_config_t_run (h : header) (fs : file_system) (path : string) (heap : config_t) :
  (2 <= MAX h)%nat ->
  match load_config_t h fs path heap with
  | Ok c s =>
      (exists f, fp s = Some f /\ is_open f = false) /\
      last (events s) = Some Fclose /\ (sized h heap -> sized h c)
  | Undefined u s =>
      (forall f, fp s = Some f -> is_open f = true) /\ Fclose ∉ events s
  | OutOfFuel _ => False
  end.
Proof.
  intros HMAX. unfold load_config_t.
  set (s0 := initial_state h fs path heap).
  unfold bind at 1. unfold printf0, modify.
  set (s1 := emit _ s0).
  assert (still_open s1) as Hopen1.
  { split; simpl; [|chars]. unfold fopen. intros f. destruct (fs path); by intros [= <-]. }
  pose proof (ends_in_while h _ (keeps_open_closed h) (fuel_for s0) s1) as Hopen.
  pose proof (ends_in_while h _ (keeps_sized_closed h) (fuel_for s0) s1) as Hsized.
  pose proof (while_ends h (fuel_for s0) s1 HMAX) as Hends.
  unfold bind at 1.
  destruct (while_not_feof h (fuel_for s0) s1) as [[] s2|u s2|s2].
  - specialize (Hopen Hopen1). destruct Hopen as [Hf Hev].
    unfold bind at 1. unfold fclose. destruct (fp s2) as [f|] eqn:Hfp.
    + simpl. split; [by eexists|]. split; [by rewrite last_snoc|]. apply Hsized.
    + simpl. rewrite Hfp. by split.
  - by apply Hopen.
  - apply Hends. unfold fuel_for, iterations_left, s1, s0. simpl. unfold fopen.
    destruct (fs path); simpl; lia.
Qed.

(** ** One member a round *)

Lemma strtok_c_obj (str : ptr) (delim : list ascii) (s s' : state) (r : ptr) :
  strtok str delim s = Ok r s' -> c_obj s' = c_obj s.
Proof. unfold strtok. intros H. by repeat case_match; simplify_eq. Qed.

Lemma read_string_state (p : ptr) (s s' : state) (t : list ascii) :
  read_string p s = Ok t s' -> s' = s.
Proof. unfold read_string. intros H. by repeat case_match; simplify_eq. Qed.

Lemma case_body_c_obj (h : header) (k : field) (s s' : state) :
  case_body h k s = Ok tt s' -> exists v, c_obj s' = set_member k v (c_obj s).
Proof.
  unfold case_body, bind. intros H.
  destruct (strtok None [SP] s) as [p s1| |] eqn:Hstrtok; [|done..].
  apply strtok_c_obj in Hstrtok as <-.
  unfold printf, bind in H.
  destruct (read_string p s1) as [t s2| |] eqn:Hread; [|done..].
  apply read_string_state in Hread as ->.
  unfold modify, memcpy in H. destruct p as [i|]; [|done].
  case_decide; [|done]. simplify_eq. by eexists.
Qed.

(** X1. The [break] behind the [switch]: a round of the loop writes one
    member of [*c] at most. *)
Lemma loop_body_writes_once (h : header) (s s' : state) :
  loop_body h s = Ok tt s' ->
  c_obj s' = c_obj s \/ exists k v, c_obj s' = set_member k v (c_obj s).
Proof.
  unfold loop_body, bind. intros H.
  destruct (fgets (MAX h) s) as [pline s1| |] eqn:Hfgets; [|done..].
  assert (c_obj s1 = c_obj s) as <-.
  { unfold fgets in Hfgets. destruct (fp s); [|done].
    destruct (read_line _ _) as [[l r] e]. by destruct (e && _); simplify_eq. }
  unfold tokenize, bind in H.
  destruct (strtok pline [EQS] s1) as [p s2| |] eqn:Hstrtok; [|done..].
  apply strtok_c_obj in Hstrtok as <-.
  destruct p as [i|]; [|left; unfold ret in H; by simplify_eq].
  destruct (read_string (Some i) s2) as [key s3| |] eqn:Hread; [|done..].
  apply read_string_state in Hread as ->.
  unfold switch in H.
  repeat case_match;
    first [ right; eexists; by eapply case_body_c_obj
          | left; unfold ret in H; by simplify_eq ].
Qed.

(** ** The round after the last line *)

Lemma strtok_events (str : ptr) (delim : list ascii) (s s' : state) (r : ptr) :
  strtok str delim s = Ok r s' ->
  fp s' = fp s /\ events s' = events s ++ [Strtok str delim r].
Proof. unfold strtok. intros H. by repeat case_match; simplify_eq. Qed.

Lemma while_newline_ended (h : header) (fuel : nat) (s : state) (f : FILE) :
  (2 <= MAX h)%nat -> fp s = Some f -> eof_indicator f = false ->
  unread f = [] \/ last (unread f) = Some NL ->
  match while_not_feof h fuel s with
  | Ok _ s' => extra_round (events s')
  | _ => True
  end.
Proof.
  intros HMAX. revert s f. induction fuel as [|fuel IH]; intros s f Hf Heof Hunread; [done|].
  simpl. unfold bind at 1. unfold feof. rewrite Hf, Heof.
  unfold bind at 1. unfold loop_body, bind at 1. unfold fgets. rewrite Hf.
  destruct (read_line (MAX h - 1) (unread f)) as [[l r] e] eqn:Hread.
  destruct Hunread as [Hnil|Hlast].
  - rewrite Hnil in Hread. destruct (MAX h - 1)%nat eqn:HM; [lia|].
    simpl in Hread. simplify_eq. simpl.
    unfold tokenize, bind at 1.
    destruct (strtok None [EQS] _) as [p s2|u s2|s2] eqn:Htok; [|done..].
    apply strtok_events in Htok as [Hfp2 Hev2]. simpl in Hfp2, Hev2.
    set (k := match p with
              | Some _ => key <- read_string p ;; switch h (get_key_value h key)
              | None => ret tt
              end).
    assert (ends_in same_stream k) as Hk.
    { unfold k. destruct p.
      - apply ends_in_bind; [apply (tc_trans h _ (same_stream_closed h))| |].
        + apply (ends_in_read_string h), same_stream_closed.
        + intros key. apply ends_in_switch, same_stream_closed.
      - apply ends_in_ret, (tc_refl h _ (same_stream_closed h)). }
    specialize (Hk s2).
    destruct (k s2) as [[] s3|u s3|s3] eqn:Hm; [|done..].
    destruct Hk as [Hfp3 [evs Hev3]].
    destruct fuel as [|fuel]; [done|]. simpl. unfold bind at 1. unfold feof.
    rewrite Hfp3, Hfp2. simpl. rewrite orb_true_r. simpl.
    exists (events s), p, evs. rewrite Hev3, Hev2, <- !app_assoc. done.
  - destruct (read_line_newline_ended _ _ _ _ _ Hlast Hread) as [-> Hr]. simpl.
    pose proof (ends_in_tokenize h _ (same_stream_closed h) (Some 0%nat)) as Htok.
    match goal with
    | |- context [tokenize h (Some 0%nat) ?s1] => specialize (Htok s1)
    end.
    destruct (tokenize h (Some 0%nat) _) as [[] s2|u s2|s2]; [|done..].
    destruct Htok as [Hfp2 _]. simpl in Hfp2.
    eapply IH; [exact Hfp2|by rewrite Heof|done].
Qed.

(** Behind a newline, what follows in the stream does not matter to the
    line read before it. *)
Lemma read_line_app (n : nat) (pre x : list ascii) :
  last pre = Some NL ->
  read_line n (pre ++ x) = let '(l, r, e) := read_line n pre in (l, r ++ x, e).
Proof.
  revert pre. induction n as [|n IH]; intros pre Hlast; [done|].
  destruct pre as [|ch pre]; [done|]. simpl.
  case_bool_decide; [done|].
  destruct pre as [|ch' pre]; [by simplify_eq/=|].
  rewrite last_cons_cons in Hlast.
  change ((ch' :: pre) ++ x) with (ch' :: pre ++ x) in IH.
  rewrite (IH (ch' :: pre) Hlast).
  by destruct (read_line n (ch' :: pre)) as [[l r] e].
Qed.

Lemma no_null_fgets_closed (h : header) : tokenize_closed h no_null_fgets.
Proof.
  assert (forall e s, e <> Fgets None -> no_null_fgets s (emit e s)) as Hemit.
  { intros e s He Hev. simpl. chars. }
  split; try (intros; by apply Hemit); unfold no_null_fgets; try done; auto.
Qed.

(** A last line that no newline ends, and that fits: [fgets] hits the end
    of the file while it reads that line, and the loop ends with it. *)
Lemma while_unterminated (h : header) (fuel : nat) (s : state) (f : FILE)
    (pre final : list ascii) :
  (2 <= MAX h)%nat -> fp s = Some f -> eof_indicator f = false ->
  unread f = pre ++ final -> pre = [] \/ last pre = Some NL ->
  NL ∉ final -> final <> [] -> (length final + 1 < MAX h)%nat ->
  Fgets None ∉ events s ->
  match while_not_feof h fuel s with
  | Ok _ s' | Undefined _ s' | OutOfFuel s' => Fgets None ∉ events s'
  end.
Proof.
  intros HMAX. revert s f pre.
  induction fuel as [|fuel IH]; intros s f pre Hf Heof Hunread Hpre Hnl Hne Hfit Hev;
    [done|].
  simpl. unfold bind at 1. unfold feof. rewrite Hf, Heof.
  unfold bind at 1. unfold loop_body, bind at 1. unfold fgets. rewrite Hf, Hunread.
  pose proof (ends_in_tokenize h _ (no_null_fgets_closed h) (Some 0%nat)) as Htok.
  destruct Hpre as [->|Hlast].
  - simpl. rewrite read_line_last; [|done|lia]. simpl.
    rewrite bool_decide_eq_false_2 by done.
    match goal with
    | |- context [tokenize h (Some 0%nat) ?s1] => specialize (Htok s1)
    end.
    destruct (tokenize h (Some 0%nat) _) as [[] s2|u s2|s2] eqn:Hrun;
      [|apply Htok; simpl; chars..].
    assert (Fgets None ∉ events s2) as Hev2 by (apply Htok; simpl; chars).
    assert (fp s2 = Some {| unread := []; eof_indicator := eof_indicator f || true;
                            is_open := is_open f |}) as Hfp2.
    { pose proof (ends_in_tokenize h _ (same_stream_closed h) (Some 0%nat)) as Hsame.
      match goal with
      | H : tokenize h (Some 0%nat) ?s1 = _ |- _ => specialize (Hsame s1); rewrite H in Hsame
      end.
      by destruct Hsame as [-> _]. }
    destruct fuel as [|fuel]; [done|]. simpl. unfold bind at 1. unfold feof.
    rewrite Hfp2. simpl. by rewrite orb_true_r.
  - rewrite (read_line_app _ pre final Hlast).
    destruct (read_line (MAX h - 1) pre) as [[l r] e] eqn:Hread.
    destruct (read_line_newline_ended _ _ _ _ _ Hlast Hread) as [-> Hr]. simpl.
    match goal with
    | |- context [tokenize h (Some 0%nat) ?s1] => specialize (Htok s1)
    end.
    destruct (tokenize h (Some 0%nat) _) as [[] s2|u s2|s2] eqn:Hrun;
      [|apply Htok; simpl; chars..].
    assert (Fgets None ∉ events s2) as Hev2 by (apply Htok; simpl; chars).
    pose proof (ends_in_tokenize h _ (same_stream_closed h) (Some 0%nat)) as Hsame.
    match goal with
    | H : tokenize h (Some 0%nat) ?s1 = _ |- _ => specialize (Hsame s1); rewrite H in Hsame
    end.
    destruct Hsame as [Hfp2 _]. simpl in Hfp2.
    eapply (IH s2 _ r); [exact Hfp2|by rewrite Heof|done|done|done|done|done|done].
Qed.

(** ** Reading a member as a string *)

Lemma holds_c_str (h : header) (k : field) (tok : list ascii) (c : config_t) :
  holds h k tok c -> NUL ∉ tok -> (length tok < sizeof h k)%nat ->
  c_str (member k c) = Some tok.
Proof.
  intros [junk ->] Hnul Hlen.
  rewrite take_app_ge by lia.
  destruct (sizeof h k - length tok)%nat as [|n] eqn:Hn; [lia|].
  simpl. by apply c_str_app.
Qed.

Lemma holds_truncated (h : header) (k : field) (tok : list ascii) (c : config_t) :
  holds h k tok c -> NUL ∉ tok -> (sizeof h k <= length tok)%nat ->
  member k c = take (sizeof h k) tok /\ c_str (member k c) = None.
Proof.
  intros [junk ->] Hnul Hlen. rewrite take_app_le by done. split; [done|].
  apply c_str_unterminated. intros Hin. apply Hnul.
  by apply (subseteq_take (sizeof h k) tok) in Hin.
Qed.

Lemma last_value_app (k : field) (a b : list line) :
  last_value k (a ++ b)
  = match last_value k b with Some v => Some v | None => last_value k a end.
Proof.
  induction a as [|l a IH]; simpl; [by destruct (last_value k b)|].
  rewrite IH. by destruct (last_value k b).
Qed.

Lemma last_value_entry (k : field) (pre post : list line) (value rest : list ascii)
    (nl : bool) :
  last_value k post = None ->
  last_value k (pre ++ Entry (key_string k) value rest nl :: post)
  = Some (value_token value rest nl).
Proof.
  intros Hpost. rewrite last_value_app. simpl. rewrite Hpost.
  by rewrite decide_True.
Qed.

Lemma value_token_NUL (value rest : list ascii) (nl : bool) :
  NUL ∉ value -> NUL ∉ value_token value rest nl.
Proof. intros Hv. unfold value_token. destruct rest; [destruct nl; simpl; chars|done]. Qed.

Lemma last_value_NUL (h : header) (k : field) (ls : list line) (tok : list ascii) :
  Forall (line_ok h) ls -> last_value k ls = Some tok -> NUL ∉ tok.
Proof.
  induction ls as [|l ls IH]; intros Hok Hk; [done|].
  apply Forall_cons in Hok as [Hl Hok]. simpl in Hk.
  destruct (last_value k ls) as [tok'|]; [simplify_eq; by apply IH|].
  destruct l as [text nl|key value rest nl]; simpl in Hk; [done|].
  case_decide; [|done]. simplify_eq. apply value_token_NUL. simpl in Hl. tauto.
Qed.

Lemma config_t_ext (c c' : config_t) : (forall k, member k c = member k c') -> c = c'.
Proof.
  intros H. destruct c, c'.
  pose proof (H F_name). pose proof (H F_purpose). pose proof (H F_numkey).
  pose proof (H F_auth_pubkey_path). pose proof (H F_entity_privkey_path).
  pose proof (H F_auth_ip_addr). pose proof (H F_auth_port_num).
  pose proof (H F_entity_server_ip_addr). pose proof (H F_entity_server_port_num).
  pose proof (H F_network_protocol). simpl in *. by subst.
Qed.

(** ** The example header *)

Lemma example_header_ok : header_ok example_header.
Proof.
  split; simpl.
  - intros k1 k2. destruct k1, k2; simpl; first [done|lia].
  - intros k. destruct k; simpl; lia.
  - lia.
  - lia.
Qed.

Lemma stale_sized : sized example_header stale.
Proof. intros k. by destruct k. Qed.

(** ** Lines before the last *)

Section Inner.

Variable h : header.
Hypothesis Hh : header_ok h.

(** One round of the loop on a line before the last. *)
Lemma loop_body_inner (s : state) (l : line) (r : list ascii) :
  inner_line_ok h l -> length (buffer s) = MAX h -> reading s (render l ++ r) ->
  exists s',
    loop_body h s = Ok tt s' /\ reading s' r /\ length (buffer s') = MAX h /\
    line_effect h l (c_obj s) (c_obj s') /\
    printed (events s') = printed (events s) ++ line_output l.
Proof.
  intros Hok Hlen Hread. unfold loop_body, bind.
  destruct l as [text nl|key value rest nl]; simpl in Hok, Hread |- *.
  - destruct Hok as (-> & Hnul & Hnl & Heq & Hfit).
    rewrite <- app_assoc in Hread.
    destruct (fgets_line_state h s text r true Hread Hnl Hfit)
      as (s1 & junk & -> & Hbuf1 & Hread1 & Hc1 & Hp1 & Hlen1); [done|done|].
    rewrite app_assoc in Hbuf1.
    destruct (tokenize_plain h Hh s1 (text ++ eol true) junk Hbuf1)
      as (s' & -> & (Hfp & Hlen' & Hc & Hp) & Hbuf' & Hsave').
    { simpl. by destruct text. }
    { simpl; chars. }
    { simpl; chars. }
    { simpl. intros k Hk. apply (key_string_NL k). rewrite <- Hk.
      apply elem_of_app. right. left. }
    exists s'. split; [done|]. split; [unfold reading in *; by rewrite Hfp|].
    split; [congruence|]. split; [congruence|]. by rewrite Hp, Hp1.
  - destruct Hok as (-> & Hne & Hknul & Hknl & Hkeq & Hvnul & Hvnl & Hrnul & Hrnl
                     & Hrest & Hfit & Hkey).
    assert ((key ++ EQS :: value ++ rest ++ eol true) ++ r
            = (key ++ EQS :: value ++ rest) ++ eol true ++ r) as Hshape.
    { rewrite <- !app_assoc. simpl. by rewrite <- !app_assoc. }
    rewrite Hshape in Hread.
    destruct (fgets_line_state h s (key ++ EQS :: value ++ rest) r true Hread)
      as (s1 & junk & -> & Hbuf1 & Hread1 & Hc1 & Hp1 & Hlen1); [chars| |done|done|].
    { rewrite !length_app. simpl. rewrite length_app. lia. }
    assert (buffer s1 = key ++ EQS :: value ++ rest ++ eol true ++ NUL :: junk) as Hbuf1'.
    { rewrite Hbuf1, <- !app_assoc. simpl. by rewrite <- !app_assoc. }
    rewrite (tokenize_key h s1 key _ Hbuf1' Hne Hknul Hkeq).
    set (s2 := emit _ _).
    assert (length (buffer s2) = MAX h) as Hlen2.
    { rewrite <- Hlen1, Hbuf1'. simpl. rewrite !length_app. simpl.
      by rewrite !length_app. }
    assert (fp s2 = fp s1) as Hfp2 by done.
    destruct (field_of_key key) as [k|] eqn:Hfield.
    + apply field_of_key_Some in Hfield as ->.
      destruct Hkey as (Hvsp & Htok & Hsize).
      rewrite get_key_value_key, (switch_tag h Hh).
      assert (rest = [] \/ exists more, rest = SP :: more) as [->|[more ->]].
      { destruct rest as [|ch more]; [by left|right].
        destruct Hrest as [?|[= ->]]; [done|by exists more]. }
      * simpl in Htok.
        destruct (case_body_last_token h k s2 (key_string k ++ [NUL]) (value ++ eol true) junk)
          as (s' & -> & (Hfp & Hlen' & Hc & Hp) & Hbuf' & Hsave').
        { simpl. by rewrite <- !app_assoc. }
        { simpl. rewrite length_app. simpl. f_equal. lia. }
        { done. }
        { simpl; chars. }
        { simpl; chars. }
        { rewrite Hlen2, length_app. simpl. lia. }
        exists s'. split; [done|].
        split; [unfold reading in *; by rewrite Hfp, Hfp2|].
        split; [congruence|].
        split; [exists junk; by rewrite Hc, <- Hc1|].
        rewrite Hp. simpl. by rewrite printed_app, Hp1, app_nil_r.
      * simpl in Htok.
        destruct (case_body_token h k s2 (key_string k ++ [NUL]) value
                    (more ++ eol true ++ NUL :: junk))
          as (s' & -> & (Hfp & Hlen' & Hc & Hp) & Hbuf' & Hsave').
        { simpl. by rewrite <- !app_assoc. }
        { simpl. rewrite length_app. simpl. f_equal. lia. }
        { done. }
        { done. }
        { done. }
        { rewrite Hlen2, length_app. simpl. lia. }
        exists s'. split; [done|].
        split; [unfold reading in *; by rewrite Hfp, Hfp2|].
        split; [congruence|].
        split; [eexists; by rewrite Hc, <- Hc1|].
        rewrite Hp. simpl. by rewrite printed_app, Hp1, app_nil_r.
    + rewrite get_key_value_unknown; [|done|by apply field_of_key_None].
      rewrite (switch_unmatched h Hh). exists s2. split; [done|].
      split; [unfold reading in *; by rewrite Hfp2|].
      split; [done|]. split; [done|]. simpl. by rewrite printed_app, Hp1, !app_nil_r.
Qed.

Lemma members_after_app (ls1 ls2 : list line) (c c1 c2 : config_t) :
  members_after h ls1 c c1 -> members_after h ls2 c1 c2 ->
  members_after h (ls1 ++ ls2) c c2.
Proof.
  intros H1 H2 k. specialize (H1 k). specialize (H2 k). rewrite last_value_app.
  destruct (last_value k ls2) as [tok|]; [done|].
  destruct (last_value k ls1) as [tok|]; [|congruence].
  destruct H1 as [junk H1]. exists junk. congruence.
Qed.

(** The rounds of the loop on the lines before the last. *)
Lemma while_inner_lines (ls : list line) (s : state) (r : list ascii) :
  Forall (inner_line_ok h) ls -> length (buffer s) = MAX h ->
  reading s (render_all ls ++ r) ->
  exists s1,
    (forall fuel, while_not_feof h (length ls + fuel) s = while_not_feof h fuel s1) /\
    reading s1 r /\ length (buffer s1) = MAX h /\
    members_after h ls (c_obj s) (c_obj s1) /\
    printed (events s1) = printed (events s) ++ concat (line_output <$> ls).
Proof.
  revert s. induction ls as [|l ls IH]; intros s Hok Hlen Hread.
  - exists s. split; [done|]. split; [done|]. split; [done|].
    split; [apply members_after_nil|]. simpl. by rewrite app_nil_r.
  - apply Forall_cons in Hok as [Hl Hok].
    unfold render_all in Hread. rewrite fmap_cons in Hread.
    change (concat (?x :: ?y)) with (x ++ concat y) in Hread.
    rewrite <- app_assoc in Hread.
    destruct (loop_body_inner s l _ Hl Hlen Hread) as (s1 & Hbody & Hread1 & Hlen1 & Heff & Hp1).
    destruct (IH s1 Hok Hlen1 Hread1) as (s2 & Hfuel & Hread2 & Hlen2 & Hmem & Hp2).
    exists s2. split; [|split; [done|]; split; [done|]; split].
    + intros fuel. simpl. unfold bind at 1. unfold feof. rewrite Hread. simpl.
      unfold bind at 1. rewrite Hbody. apply Hfuel.
    + by eapply members_after_cons.
    + rewrite Hp2, Hp1. rewrite fmap_cons.
      change (concat (?x :: ?y)) with (x ++ concat y). by rewrite app_assoc.
Qed.

Lemma inner_render_nonempty (l : line) : inner_line_ok h l -> render l <> [].
Proof.
  destruct l as [text nl|key value rest nl]; simpl.
  - intros (-> & _). simpl. by destruct text.
  - intros (_ & ? & _). by destruct key.
Qed.

Lemma length_inner_render_all (ls : list line) :
  Forall (inner_line_ok h) ls -> (length ls <= length (render_all ls))%nat.
Proof.
  induction ls as [|l ls IH]; intros Hok; [done|].
  apply Forall_cons in Hok as [Hl Hok]. unfold render_all in *.
  rewrite fmap_cons. change (concat (?x :: ?r)) with (x ++ concat r).
  rewrite length_app. simpl length at 1.
  pose proof (inner_render_nonempty l Hl). specialize (IH Hok).
  destruct (render l); [done|]. simpl. lia.
Qed.

(** The loader on a file that starts with such lines: what is left to do
    when they have been read. *)
Lemma load_inner_lines (fs : file_system) (path : string) (heap : config_t)
    (ls : list line) (r : list ascii) :
  Forall (inner_line_ok h) ls -> fs path = Some (render_all ls ++ r) ->
  exists s1 fuel,
    (length r + 2 <= fuel)%nat /\
    load_config_t h fs path heap
    = (while_not_feof h fuel ;;; fclose ;;; s <- get ;; ret (c_obj s)) s1 /\
    reading s1 r /\ length (buffer s1) = MAX h /\
    members_after h ls heap (c_obj s1) /\
    printed (events s1) = banner :: concat (line_output <$> ls).
Proof.
  intros Hok Hfs.
  set (s0 := emit (Printf banner) (initial_state h fs path heap)).
  destruct (while_inner_lines ls s0 r Hok) as (s1 & Hfuel & Hread1 & Hlen1 & Hmem & Hp1).
  { apply length_replicate. }
  { unfold reading, s0, initial_state, fopen. simpl. by rewrite Hfs. }
  pose proof (length_inner_render_all ls Hok) as Hls.
  exists s1, (length (render_all ls) - length ls + length r + 2)%nat.
  split; [lia|]. split; [|done].
  unfold load_config_t. unfold bind at 1. unfold printf0, modify.
  fold banner. fold s0. unfold bind at 1. unfold bind at 3.
  replace (fuel_for (initial_state h fs path heap))
    with (length ls + (length (render_all ls) - length ls + length r + 2))%nat.
  - by rewrite Hfuel.
  - unfold fuel_for, initial_state, fopen. simpl. rewrite Hfs. simpl.
    rewrite length_app. lia.
Qed.

End Inner.

(** ** Running the loop round by round *)

Lemma render_all_app (ls1 ls2 : list line) :
  render_all (ls1 ++ ls2) = render_all ls1 ++ render_all ls2.
Proof. unfold render_all. by rewrite fmap_app, concat_app. Qed.

Lemma line_output_app (ls1 ls2 : list line) :
  concat (line_output <$> (ls1 ++ ls2))
  = concat (line_output <$> ls1) ++ concat (line_output <$> ls2).
Proof. by rewrite fmap_app, concat_app. Qed.

Ltac shape := repeat first [progress simpl | rewrite <- app_assoc]; try done.
Ltac lens := repeat first [progress simpl in * | rewrite length_app in * ]; try lia.

Section LastLines.

Variable h : header.
Hypothesis Hh : header_ok h.

(** A round that ends is followed by the rest of the loop. *)
Lemma while_round (fuel : nat) (s s' : state) (r : list ascii) :
  reading s r -> loop_body h s = Ok tt s' ->
  while_not_feof h (S fuel) s = while_not_feof h fuel s'.
Proof.
  intros Hread Hbody. simpl. unfold bind at 1. unfold feof. rewrite Hread. simpl.
  unfold bind. by rewrite Hbody.
Qed.

(** A round that goes wrong ends the run. *)
Lemma load_round_undefined (fuel : nat) (s s' : state) (r : list ascii)
    (u : undefined_behaviour) :
  reading s r -> loop_body h s = Undefined u s' ->
  (while_not_feof h (S fuel) ;;; fclose ;;; s <- get ;; ret (c_obj s)) s = Undefined u s'.
Proof.
  intros Hread Hbody. unfold bind at 1. simpl. unfold bind at 1. unfold feof.
  rewrite Hread. simpl. unfold bind at 1. by rewrite Hbody.
Qed.


End LastLines.

(** ** Files of such lines, with any text behind the first value *)

Lemma well_formed_split (h : header) (ls : list line) :
  well_formed h ls ->
  exists ls1 l, ls = ls1 ++ [l] /\ Forall (inner_line_ok h) ls1 /\ line_ok h l.
Proof.
  induction ls as [|l ls IH]; [done|]. destruct ls as [|l' ls].
  - intros Hl. exists [], l. split; [done|]. split; [apply Forall_nil_2|done].
  - intros [Hl Hls]. destruct (IH Hls) as (ls1 & l0 & Heq & Hok & Hl0).
    exists (l :: ls1), l0. rewrite Heq. split; [done|].
    split; [by apply Forall_cons|done].
Qed.

Lemma well_formed_value_NUL (h : header) (pre post : list line)
    (key value rest : list ascii) (nl : bool) :
  well_formed h (pre ++ Entry key value rest nl :: post) ->
  NUL ∉ value_token value rest nl.
Proof.
  intros Hok. apply value_token_NUL.
  destruct (well_formed_split h _ Hok) as (ls1 & l & Heq & Hok1 & Hl).
  assert (Entry key value rest nl ∈ ls1 ++ [l]) as Hin.
  { rewrite <- Heq. apply elem_of_app. right. left. }
  apply elem_of_app in Hin as [Hin|Hin].
  - rewrite Forall_forall in Hok1. specialize (Hok1 _ Hin). simpl in Hok1. tauto.
  - apply list_elem_of_singleton in Hin as <-. simpl in Hl. tauto.
Qed.

Section WellFormed.

Variable h : header.
Hypothesis Hh : header_ok h.

(** A file of such lines: the loader returns; every member a line gave a
    value to holds the value the last such line gave, the others are as
    they were in the storage [malloc] returned; a progress line was printed
    for every line with a key the loader knows, and nothing else but the
    banner. *)
Lemma load_well_formed (fs : file_system) (path : string) (heap : config_t)
    (ls : list line) :
  well_formed h ls -> fs path = Some (render_all ls) ->
  exists c s,
    load_config_t h fs path heap = Ok c s /\
    members_after h ls heap c /\
    printed (events s) = banner :: concat (line_output <$> ls).
Proof.
  intros Hok Hfs. destruct (well_formed_split h ls Hok) as (ls1 & l & -> & Hok1 & Hl).
  rewrite render_all_app in Hfs.
  destruct (load_inner_lines h Hh fs path heap ls1 _ Hok1 Hfs)
    as (s1 & fuel & Hfuel & -> & Hread1 & Hlen1 & Hmem1 & Hp1).
  destruct (while_lines h Hh [l] s1 fuel) as (s2 & Hwhile & Heof & Hmem2 & Hp2).
  { split; [by apply Forall_singleton|done]. }
  { done. }
  { done. }
  { done. }
  { pose proof (render_nonempty h l Hl) as Hne. unfold render_all in Hfuel.
    simpl in Hfuel. rewrite app_nil_r in Hfuel. destruct (render l); [done|].
    simpl in *. lia. }
  unfold bind at 1. rewrite Hwhile. unfold bind, fclose. rewrite Heof. simpl.
  eexists _, _. split; [done|]. split; [by eapply members_after_app|].
  simpl. rewrite printed_app, Hp2, Hp1, line_output_app. simpl.
  by rewrite app_nil_r.
Qed.

(** A key, ['='], and the end of the file: [strtok(NULL, " ")] returns
    null, and [printf] is called with it. *)
Lemma load_key_at_eof (fs : file_system) (path : string) (heap : config_t)
    (ls : list line) (k : field) :
  Forall (inner_line_ok h) ls -> (length (key_string k) + 2 < MAX h)%nat ->
  fs path = Some (render_all ls ++ key_string k ++ [EQS]) ->
  exists s,
    load_config_t h fs path heap = Undefined UB_null_string s /\
    last (events s) = Some (Strtok None [SP] None) /\
    members_after h ls heap (c_obj s) /\
    printed (events s) = banner :: concat (line_output <$> ls).
Proof.
  intros Hok Hfit Hfs.
  pose proof (key_string_nonempty k) as Hkne. pose proof (key_string_NUL k) as Hknul.
  pose proof (key_string_NL k) as Hknl. pose proof (key_string_EQS k) as Hkeq.
  destruct (load_inner_lines h Hh fs path heap ls _ Hok Hfs)
    as (s1 & fuel & Hfuel & -> & Hread1 & Hlen1 & Hmem1 & Hp1).
  assert (key_string k ++ [EQS] = (key_string k ++ [EQS]) ++ eol false ++ []) as Hshape
    by (simpl; by rewrite app_nil_r).
  pose proof Hread1 as Hread1'. rewrite Hshape in Hread1'.
  destruct (fgets_line_state h s1 _ [] false Hread1')
    as (s2 & junk & Hfgets & Hbuf2 & Heof2 & Hc2 & Hp2 & Hlen2).
  { chars. }
  { rewrite length_app. simpl. lia. }
  { intros _. split; [done|]. by destruct (key_string k). }
  { done. }
  assert (buffer s2 = key_string k ++ EQS :: NUL :: junk) as Hbuf2'
    by (rewrite Hbuf2; shape).
  pose proof (tokenize_key h s2 (key_string k) _ Hbuf2' Hkne Hknul Hkeq) as Htok2.
  rewrite get_key_value_key, (switch_tag h Hh) in Htok2.
  match type of Htok2 with _ = case_body _ _ ?s => set (s2' := s) in * end.
  assert (loop_body h s1
          = Undefined UB_null_string
              (emit (Strtok None [SP] None)
                 (set_strtok_save (Some (S (length (key_string k)))) s2'))) as Hround.
  { unfold loop_body, bind. rewrite Hfgets, Htok2. unfold case_body, bind.
    rewrite (strtok_at_end None [SP] s2' (S (length (key_string k)))); [done|done|].
    unfold s2'. simpl. rewrite lookup_app_r by lia.
    by replace (S (length (key_string k)) - length (key_string k))%nat with 1%nat by lia. }
  destruct fuel as [|fuel]; [lia|].
  rewrite (load_round_undefined h fuel s1 _ _ _ Hread1 Hround).
  eexists. split; [done|]. simpl. split; [by rewrite last_snoc|].
  split; [by rewrite Hc2|].
  rewrite !printed_app. simpl. by rewrite !app_nil_r, Hp2.
Qed.

End WellFormed.

(** * The claims *)

(** C1, as amended. In a file that is [well_formed] (it is not empty; no
    line has a terminator in it or an empty text before its first ['='];
    every line has [MAX - 2] characters at most, not counting its newline,
    and every line but the last has one; behind the ['='] of a key the
    loader knows the value starts at once, has no space in it, the token
    [strtok(NULL, " ")] finds there is not empty, and [sizeof] characters
    of the buffer lie from there on; the last line has no ['='] behind its
    first value, none behind its first ['='] when its key is not known, and
    is neither empty nor a key name when it has no ['='] and no newline),
    and for each of the ten keys [k]: the loader returns, and member [k] of
    the record holds the token [strtok(NULL, " ")] finds on the last line
    that starts with the key name of [k] directly followed by ['='] (no
    space before the ['=']): the value when a space follows it or the file
    ends behind it, the value and the newline of the line otherwise. The
    member holds that token, a terminator and then characters this
    statement leaves open, all cut at the size of the member; read as a
    string it is the token, character for character, when the token is
    shorter than the member. *)
Theorem load_value_of_line (h : header) (fs : file_system) (path : string)
    (heap : config_t) (pre post : list line) (k : field) (value rest : list ascii)
    (nl : bool) :
  header_ok h ->
  well_formed h (pre ++ Entry (key_string k) value rest nl :: post) ->
  last_value k post = None ->
  fs path = Some (render_all (pre ++ Entry (key_string k) value rest nl :: post)) ->
  exists c s,
    load_config_t h fs path heap = Ok c s /\
    holds h k (value_token value rest nl) c /\
    ((length (value_token value rest nl) < sizeof h k)%nat ->
     c_str (member k c) = Some (value_token value rest nl)).
Proof.
  intros Hh Hok Hpost Hfs.
  destruct (load_well_formed h Hh fs path heap _ Hok Hfs) as (c & s & Hload & Hmem & _).
  exists c, s. split; [done|].
  specialize (Hmem k). rewrite (last_value_entry k pre post value rest nl Hpost) in Hmem.
  split; [done|]. intros Hlen. apply (holds_c_str h); [done| |done].
  by eapply well_formed_value_NUL.
Qed.

(** C2, as amended. For every path naming a file that cannot be opened,
    the loader has no defined result: after printing the banner it gives the
    null stream to [feof]. No error is returned, and no record. *)
Theorem load_unopenable (h : header) (fs : file_system) (path : string) (heap : config_t) :
  fs path = None ->
  load_config_t h fs path heap
  = Undefined UB_null_stream (emit (Printf banner) (initial_state h fs path heap)).
Proof.
  intros Hfs. unfold load_config_t, initial_state, fopen, fuel_for. simpl.
  by rewrite Hfs.
Qed.

(** C3, as amended. A line that has the key name of [k], ['='] and no
    value. (a) When the newline follows the ['='], in any [well_formed]
    file, the loader takes the newline for the value: it prints the
    progress line with it and returns the record, with no error; member [k]
    holds the newline (as a string it is the newline alone when the member
    has room for two characters), unless a later line gives [k] a value.
    (b) When the file ends right behind the ['='], after any lines as
    [inner_line_ok] describes, [strtok(NULL, " ")] returns null and
    [printf] is called with it as the string to print: the behaviour of
    the loader is undefined from that call on. Up to that call the lines
    before have been stored and their progress lines printed, nothing has
    been printed for this line, and no error has been raised. *)
Theorem load_missing_value (h : header) (fs_nl fs_eof : file_system) (path : string)
    (heap : config_t) (pre post ls : list line) (k : field) :
  header_ok h ->
  well_formed h (pre ++ Entry (key_string k) [] [] true :: post) ->
  last_value k post = None ->
  fs_nl path = Some (render_all (pre ++ Entry (key_string k) [] [] true :: post)) ->
  Forall (inner_line_ok h) ls -> (length (key_string k) + 2 < MAX h)%nat ->
  fs_eof path = Some (render_all ls ++ key_string k ++ [EQS]) ->
  (exists c s,
     load_config_t h fs_nl path heap = Ok c s /\ holds h k [NL] c /\
     ((1 < sizeof h k)%nat -> c_str (member k c) = Some [NL]) /\
     progress_line k [NL] ∈ printed (events s)) /\
  (exists s,
     load_config_t h fs_eof path heap = Undefined UB_null_string s /\
     last (events s) = Some (Strtok None [SP] None) /\
     members_after h ls heap (c_obj s) /\
     printed (events s) = banner :: concat (line_output <$> ls)).
Proof.
  intros Hh Hok Hpost Hnl Hls Hfit Heof.
  split; [|by apply (load_key_at_eof h Hh fs_eof path heap ls k)].
  destruct (load_well_formed h Hh fs_nl path heap _ Hok Hnl) as (c & s & Hload & Hmem & Hp).
  exists c, s. split; [done|].
  specialize (Hmem k). rewrite (last_value_entry k pre post [] [] true Hpost) in Hmem.
  simpl in Hmem. split; [done|]. split.
  - intros Hsize. apply (holds_c_str h); [done|chars|done].
  - rewrite Hp, line_output_app, fmap_cons. simpl.
    rewrite field_of_key_key_string. apply elem_of_cons. right.
    apply elem_of_app. right. left.
Qed.

(** C4, as amended. In a [well_formed] file (see C1; so the last line, when
    it has no ['='] and no newline, is neither empty nor a key name, and
    when its key is not known it has one ['='] only): the loader returns,
    and every member whose key name starts no line, directly followed by
    ['='], is as it was in the storage [malloc] returned, which nothing
    initialises. When no line starts so, as in a file of blank lines, lines
    without ['='] and lines with keys the loader does not know, the record
    is that storage unchanged. *)
Theorem load_keeps_unassigned (h : header) (fs : file_system) (path : string)
    (heap : config_t) (ls : list line) :
  header_ok h -> well_formed h ls -> fs path = Some (render_all ls) ->
  exists c s,
    load_config_t h fs path heap = Ok c s /\
    (forall k, last_value k ls = None -> member k c = member k heap) /\
    ((forall k, last_value k ls = None) -> c = heap).
Proof.
  intros Hh Hok Hfs.
  destruct (load_well_formed h Hh fs path heap ls Hok Hfs) as (c & s & Hload & Hmem & _).
  exists c, s. split; [done|].
  assert (forall k, last_value k ls = None -> member k c = member k heap) as Hkeep.
  { intros k Hk. specialize (Hmem k). by rewrite Hk in Hmem. }
  split; [done|]. intros Hall. apply config_t_ext. intros k. by apply Hkeep.
Qed.

(** C5, as amended. Last write wins, in a [well_formed] file (see C1): when
    the key name of [k], directly followed by ['='], starts two lines of
    the file, and no line after the second, member [k] of the record
    returned holds the token of the second line: its value when a space
    follows it or the file ends behind it, its value and the newline
    otherwise. The member holds that token, a terminator and characters
    this statement leaves open, cut at the size of the member; when the
    token is shorter than the member, the member read as a string is that
    token, and not the token of the first line when the two differ. *)
Theorem last_write_wins (h : header) (fs : file_system) (path : string)
    (heap : config_t) (pre mid post : list line) (k : field)
    (value1 rest1 value2 rest2 : list ascii) (nl1 nl2 : bool) :
  header_ok h ->
  well_formed h
    (pre ++ Entry (key_string k) value1 rest1 nl1
         :: mid ++ Entry (key_string k) value2 rest2 nl2 :: post) ->
  last_value k post = None ->
  fs path = Some (render_all
                    (pre ++ Entry (key_string k) value1 rest1 nl1
                         :: mid ++ Entry (key_string k) value2 rest2 nl2 :: post)) ->
  exists c s,
    load_config_t h fs path heap = Ok c s /\
    holds h k (value_token value2 rest2 nl2) c /\
    ((length (value_token value2 rest2 nl2) < sizeof h k)%nat ->
     c_str (member k c) = Some (value_token value2 rest2 nl2) /\
     (value_token value1 rest1 nl1 <> value_token value2 rest2 nl2 ->
      c_str (member k c) <> Some (value_token value1 rest1 nl1))).
Proof.
  intros Hh Hok Hpost Hfs.
  assert (pre ++ Entry (key_string k) value1 rest1 nl1
              :: mid ++ Entry (key_string k) value2 rest2 nl2 :: post
          = (pre ++ Entry (key_string k) value1 rest1 nl1 :: mid)
              ++ Entry (key_string k) value2 rest2 nl2 :: post) as Hshape
    by (by rewrite <- app_assoc).
  rewrite Hshape in Hok, Hfs.
  destruct (load_well_formed h Hh fs path heap _ Hok Hfs) as (c & s & Hload & Hmem & _).
  exists c, s. split; [done|].
  specialize (Hmem k). rewrite (last_value_entry k _ post value2 rest2 nl2 Hpost) in Hmem.
  split; [done|]. intros Hlen.
  assert (c_str (member k c) = Some (value_token value2 rest2 nl2)) as Hstr.
  { apply (holds_c_str h); [done| |done]. by eapply well_formed_value_NUL. }
  split; [done|]. intros Hne. rewrite Hstr. by intros [= ?].
Qed.

(** C7, as amended. Whatever the file, a record the loader returns has
    every member at its declared size: [memcpy] writes [sizeof] characters
    into a member, never more. On a file of lines as above, a value token
    that does not leave room for the terminator is cut to the size of the
    member, which is then no string (it has no terminator). Nothing reports
    this: what the run prints is the banner and the progress lines, with the
    whole token in them. *)
Theorem load_truncates_silently (h : header) (fs : file_system) (path : string)
    (heap : config_t) (ls : list line) (k : field) (tok : list ascii) :
  header_ok h -> sized h heap ->
  ls <> [] -> file_ok h ls -> fs path = Some (render_all ls) ->
  last_value k ls = Some tok -> (sizeof h k <= length tok)%nat ->
  (forall fs' path',
     match load_config_t h fs' path' heap with
     | Ok c _ => sized h c
     | Undefined _ _ => True
     | OutOfFuel _ => False
     end) /\
  exists c s,
    load_config_t h fs path heap = Ok c s /\
    member k c = take (sizeof h k) tok /\ c_str (member k c) = None /\
    printed (events s) = banner :: concat (line_output <$> ls).
Proof.
  intros Hh Hheap Hne Hok Hfs Hk Hlen. split.
  - intros fs' path'.
    pose proof (load_config_t_run h fs' path' heap (MAX_ge_2 h Hh)) as Hrun.
    destruct (load_config_t h fs' path' heap); [|done..]. by apply Hrun.
  - destruct (load_lines h Hh fs path heap ls Hne Hok Hfs)
      as (c & s & Hload & Hmem & Hp & _).
    exists c, s. split; [done|].
    specialize (Hmem k). rewrite Hk in Hmem.
    destruct (holds_truncated h k tok c Hmem) as [Hcut Hstr];
      [by eapply last_value_NUL; [apply Hok|]|done|done].
Qed.

(** C8, at the input where the loader departs from it: a last line with
    two key/value pairs makes the loader write two members, the second in
    the round after the last line, where [fgets] returns null and
    [strtok] resumes in the same buffer. *)
Lemma two_pairs_on_last_line :
  exists c s,
    load_config_t example_header
      (one_file (lit "entityInfo.name=a entityInfo.purpose=b" ++ [NL]))
      "entity.config" stale = Ok c s /\
    c_str (name c) = Some (lit "a") /\
    c_str (purpose c) = Some (lit "b" ++ [NL]) /\
    written (events s) = [F_name; F_purpose].
Proof. eexists _, _. split; [vm_compute; reflexivity|]. by vm_compute. Qed.

(** C9, as amended. The loader has one way to return, and on it the stream
    has been closed: [fclose] is the last call. Where the behaviour of the
    loader is undefined (a file that cannot be opened, a key without value
    at the end of the file, ...) the stream, if one was opened, has not been
    closed. The loader does not run on for ever. *)
Theorem load_closes_on_return (h : header) (fs : file_system) (path : string)
    (heap : config_t) :
  (2 <= MAX h)%nat ->
  match load_config_t h fs path heap with
  | Ok c s =>
      (exists f, fp s = Some f /\ is_open f = false) /\
      last (events s) = Some Fclose
  | Undefined u s =>
      (forall f, fp s = Some f -> is_open f = true) /\ Fclose ∉ events s
  | OutOfFuel _ => False
  end.
Proof.
  intros HMAX. pose proof (load_config_t_run h fs path heap HMAX) as Hrun.
  destruct (load_config_t h fs path heap); [|done..]. tauto.
Qed.

(** C10, as amended. For every file that ends with a newline, when the
    loader gets to return there was one more round of the loop after the
    last line was read, in which [fgets] returned null and [strtok] was
    given that null pointer, so that it resumed in the buffer of the line
    before; the loader does not run on for ever. For the empty file that
    round is the first, [strtok] has no string to resume in, and the loader
    has no defined result. For a file whose last line has no newline and
    [MAX - 2] characters at most there is no such round: [fgets] never
    returns null. *)
Theorem load_extra_round (h : header) (fs fs_empty fs_open : file_system)
    (path : string) (heap : config_t) (content pre final : list ascii) :
  (2 <= MAX h)%nat ->
  fs path = Some content -> last content = Some NL ->
  fs_empty path = Some [] ->
  fs_open path = Some (pre ++ final) -> pre = [] \/ last pre = Some NL ->
  NL ∉ final -> final <> [] -> (length final + 1 < MAX h)%nat ->
  match load_config_t h fs path heap with
  | Ok _ s => extra_round (events s)
  | Undefined _ _ => True
  | OutOfFuel _ => False
  end /\
  (exists s,
     load_config_t h fs_empty path heap = Undefined UB_strtok_no_string s /\
     events s = [Printf banner; Fgets None]) /\
  match load_config_t h fs_open path heap with
  | Ok _ s | Undefined _ s => Fgets None ∉ events s
  | OutOfFuel _ => False
  end.
Proof.
  intros HMAX Hfs Hlast Hempty Hopen Hpre Hnl Hne Hfit. split; [|split].
  - pose proof (load_config_t_run h fs path heap HMAX) as Hrun.
    unfold load_config_t in *.
    set (s0 := initial_state h fs path heap) in *.
    unfold bind at 1 in Hrun. unfold bind at 1. unfold printf0, modify in *.
    set (s1 := emit _ s0) in *.
    pose proof (while_newline_ended h (fuel_for s0) s1
                  {| unread := content; eof_indicator := false; is_open := true |}
                  HMAX) as Hwhile.
    unfold bind at 1 in Hrun. unfold bind at 1.
    destruct (while_not_feof h (fuel_for s0) s1) as [[] s2|u s2|s2]; [|done..].
    destruct Hwhile as (pre' & r & post & Hev);
      [by unfold s1, s0, initial_state, fopen; simpl; rewrite Hfs|done|by right|].
    unfold bind at 1 in Hrun. unfold bind at 1. unfold fclose in *.
    destruct (fp s2); [|done]. simpl.
    exists pre', r, (post ++ [Fclose]). by rewrite Hev, <- app_assoc.
  - unfold load_config_t, initial_state, fopen, fuel_for. simpl.
    rewrite Hempty. simpl. unfold bind at 1. unfold printf0, modify.
    unfold bind at 1. unfold bind at 1. unfold feof. simpl.
    unfold bind at 1. unfold loop_body, bind at 1. unfold fgets. simpl.
    destruct (MAX h - 1)%nat eqn:HM; [lia|]. simpl. by eexists.
  - pose proof (load_config_t_run h fs_open path heap HMAX) as Hrun.
    unfold load_config_t in *.
    set (s0 := initial_state h fs_open path heap) in *.
    unfold bind at 1 in Hrun. unfold bind at 1. unfold printf0, modify in *.
    set (s1 := emit _ s0) in *.
    pose proof (while_unterminated h (fuel_for s0) s1
                  {| unread := pre ++ final; eof_indicator := false; is_open := true |}
                  pre final HMAX) as Hwhile.
    unfold bind at 1 in Hrun. unfold bind at 1.
    destruct (while_not_feof h (fuel_for s0) s1) as [[] s2|u s2|s2]; [| |done].
    + unfold bind at 1 in Hrun. unfold bind at 1. unfold fclose in *.
      assert (Fgets None ∉ events s2) as Hev2.
      { apply Hwhile; try done;
          [by unfold s1, s0, initial_state, fopen; simpl; rewrite Hopen|simpl; chars]. }
      destruct (fp s2); [|done]. simpl. chars.
    + apply Hwhile; try done;
        [by unfold s1, s0, initial_state, fopen; simpl; rewrite Hopen|simpl; chars].
Qed.

(** ** The claims at concrete files *)

(** The example file of the specification, written without spaces around
    the ['=']: the four members get their values, each with the newline of
    its line, and the other six stay as they were. *)
Example end_to_end :
  exists c s,
    load_config_t example_header (one_file example_config) "entity.config" stale
    = Ok c s /\
    c_str (name c) = Some (lit "deviceA" ++ [NL]) /\
    c_str (auth_ip_addr c) = Some (lit "10.0.0.1" ++ [NL]) /\
    c_str (auth_port_num c) = Some (lit "9000" ++ [NL]) /\
    c_str (network_protocol c) = Some (lit "TCP" ++ [NL]) /\
    written (events s) = [F_name; F_auth_ip_addr; F_auth_port_num; F_network_protocol] /\
    purpose c = purpose stale /\ numkey c = numkey stale.
Proof. eexists _, _. split; [vm_compute; reflexivity|]. by vm_compute. Qed.

(** A value at the very end of the file is stored as it stands. *)
Example value_at_end_of_file :
  exists c s,
    load_config_t example_header (one_file (lit "entityInfo.name=deviceA"))
      "entity.config" stale = Ok c s /\
    c_str (name c) = Some (lit "deviceA").
Proof. eexists _, _. split; [vm_compute; reflexivity|]. by vm_compute. Qed.

Lemma get_key_value_exact_witness :
  (forall k, get_key_value example_header (lit "auth.port.number") = tag example_header k
             <-> lit "auth.port.number" = key_string k) /\
  (forall k1 k2, k1 <> k2 ->
     get_key_value example_header (key_string k1)
     <> get_key_value example_header (key_string k2)) /\
  (get_key_value example_header (lit "auth.port.number") = -1
   <-> forall k, lit "auth.port.number" <> key_string k).
Proof.
  apply (get_key_value_exact example_header (lit "auth.port.number")).
  - exact example_header_ok.
  - compute_done.
Defined.

(** C1 fails as stated: with spaces around the ['='] the first token is the
    key name and a space, which is no key, and the member keeps what it had;
    without them the member gets the value and the newline. *)
Lemma spaced_line_counterexample :
  (exists c s,
     load_config_t example_header
       (one_file (lit "entityInfo.name = deviceA" ++ [NL])) "entity.config" stale
     = Ok c s /\
     name c = name stale /\ c_str (name c) <> Some (lit "deviceA")) /\
  (exists c s,
     load_config_t example_header
       (one_file (lit "entityInfo.name=deviceA" ++ [NL])) "entity.config" stale
     = Ok c s /\
     c_str (name c) = Some (lit "deviceA" ++ [NL]) /\
     c_str (name c) <> Some (lit "deviceA")).
Proof.
  split; eexists _, _; (split; [vm_compute; reflexivity|]); by vm_compute.
Qed.

Lemma load_value_of_line_witness :
  exists c s,
    load_config_t example_header (one_file example_config) "entity.config" stale
    = Ok c s /\
    holds example_header F_auth_ip_addr (lit "10.0.0.1" ++ [NL]) c /\
    c_str (auth_ip_addr c) = Some (lit "10.0.0.1" ++ [NL]).
Proof.
  destruct (load_value_of_line example_header (one_file example_config)
              "entity.config" stale
              [Entry (lit "entityInfo.name") (lit "deviceA") [] true]
              [Entry (lit "auth.port.number") (lit "9000") [] true;
               Entry (lit "network.protocol") (lit "TCP") [] true]
              F_auth_ip_addr (lit "10.0.0.1") [] true)
    as (c & s & Hload & Hholds & Hstr).
  - exact example_header_ok.
  - compute_done.
  - vm_compute. reflexivity.
  - vm_compute. reflexivity.
  - exists c, s. split; [exact Hload|]. split; [exact Hholds|].
    apply Hstr. vm_compute. lia.
Defined.

(** C2 fails as stated: no error is returned for a file that is not there. *)
Lemma unopenable_counterexample :
  exists s,
    load_config_t example_header (one_file example_config) "missing.config" stale
    = Undefined UB_null_stream s /\
    fp s = None /\ events s = [Printf banner].
Proof. eexists. split; [vm_compute; reflexivity|]. by vm_compute. Qed.

Lemma load_unopenable_witness :
  load_config_t example_header (one_file example_config) "missing.config" stale
  = Undefined UB_null_stream
      (emit (Printf banner)
         (initial_state example_header (one_file example_config) "missing.config" stale)).
Proof.
  apply (load_unopenable example_header (one_file example_config) "missing.config" stale).
  vm_compute. reflexivity.
Defined.

(** C3 fails as stated: a key without value is an error in neither form;
    with the newline behind the ['='] the newline is stored, at the end of
    the file the behaviour is undefined. *)
Lemma missing_value_counterexample :
  (exists c s,
     load_config_t example_header
       (one_file (lit "entityInfo.name=" ++ [NL])) "entity.config" stale = Ok c s /\
     c_str (name c) = Some [NL] /\
     printed (events s) = [banner; lit "name: " ++ [NL]]) /\
  (exists s,
     load_config_t example_header
       (one_file (lit "entityInfo.name=")) "entity.config" stale
     = Undefined UB_null_string s /\
     c_obj s = stale).
Proof.
  split.
  - eexists _, _. split; [vm_compute; reflexivity|]. by vm_compute.
  - eexists. split; [vm_compute; reflexivity|]. by vm_compute.
Qed.

Lemma load_missing_value_witness :
  (exists c s,
     load_config_t example_header
       (one_file (render_all ([port_line] ++ Entry (key_string F_name) [] [] true
                                :: [Plain (lit "# end") true])))
       "entity.config" stale = Ok c s /\
     holds example_header F_name [NL] c /\
     c_str (member F_name c) = Some [NL] /\
     progress_line F_name [NL] ∈ printed (events s)) /\
  (exists s,
     load_config_t example_header
       (one_file (render_all [port_line] ++ key_string F_name ++ [EQS]))
       "entity.config" stale = Undefined UB_null_string s /\
     last (events s) = Some (Strtok None [SP] None) /\
     members_after example_header [port_line] stale (c_obj s) /\
     printed (events s) = banner :: concat (line_output <$> [port_line])).
Proof.
  destruct (load_missing_value example_header
              (one_file (render_all ([port_line] ++ Entry (key_string F_name) [] [] true
                                       :: [Plain (lit "# end") true])))
              (one_file (render_all [port_line] ++ key_string F_name ++ [EQS]))
              "entity.config" stale [port_line] [Plain (lit "# end") true] [port_line]
              F_name)
    as [(c & s & Hload & Hholds & Hstr & Hprinted) Heof].
  - exact example_header_ok.
  - compute_done.
  - vm_compute. reflexivity.
  - vm_compute. reflexivity.
  - compute_done.
  - vm_compute. lia.
  - vm_compute. reflexivity.
  - split; [|exact Heof]. exists c, s. split; [exact Hload|]. split; [exact Hholds|].
    split; [|exact Hprinted]. apply Hstr. vm_compute. lia.
Defined.

(** C4 fails as stated: the members of a file without known keys are not
    empty but as [malloc] left them, here not even strings; and the empty
    file, which has no line with a known key either, makes the loader call
    [strtok(NULL, "=")] before any string was given. *)
Lemma unknown_keys_counterexample :
  (exists c s,
     load_config_t example_header (one_file (lit "foo=bar" ++ [NL])) "entity.config"
       stale = Ok c s /\
     c = stale /\ forall k, c_str (member k c) = None) /\
  (exists s,
     load_config_t example_header (one_file []) "entity.config" stale
     = Undefined UB_strtok_no_string s).
Proof.
  split.
  - eexists _, _. split; [vm_compute; reflexivity|]. split; [done|].
    intros k. by destruct k.
  - eexists. vm_compute. reflexivity.
Qed.

Lemma load_keeps_unassigned_witness :
  exists c s,
    load_config_t example_header (one_file (render_all unknown_lines)) "entity.config"
      stale = Ok c s /\
    c = stale.
Proof.
  destruct (load_keeps_unassigned example_header (one_file (render_all unknown_lines))
              "entity.config" stale unknown_lines)
    as (c & s & Hload & _ & Hall).
  - exact example_header_ok.
  - compute_done.
  - vm_compute. reflexivity.
  - exists c, s. split; [exact Hload|]. apply Hall.
    intros k. destruct k; vm_compute; reflexivity.
Defined.

(** C5 fails as stated: with the spaces of the specification around the
    ['='] neither line is acted on and the member keeps what the storage
    held; without them the member gets the second value and the newline
    of its line, not the second value. *)
Lemma last_write_counterexample :
  (exists c s,
     load_config_t example_header
       (one_file (lit "entityInfo.name = first" ++ NL
                    :: lit "entityInfo.name = second" ++ [NL]))
       "entity.config" stale = Ok c s /\
     c = stale /\ c_str (name c) <> Some (lit "second")) /\
  (exists c s,
     load_config_t example_header
       (one_file (lit "entityInfo.name=first" ++ NL
                    :: lit "entityInfo.name=second" ++ [NL]))
       "entity.config" stale = Ok c s /\
     c_str (name c) = Some (lit "second" ++ [NL]) /\
     c_str (name c) <> Some (lit "second")).
Proof.
  split; eexists _, _; (split; [vm_compute; reflexivity|]); by vm_compute.
Qed.

Lemma last_write_wins_witness :
  exists c s,
    load_config_t example_header (one_file (render_all twice_lines)) "entity.config"
      stale = Ok c s /\
    holds example_header F_name (lit "deviceB" ++ [NL]) c /\
    c_str (name c) = Some (lit "deviceB" ++ [NL]) /\
    c_str (name c) <> Some (lit "deviceA" ++ [NL]).
Proof.
  destruct (last_write_wins example_header (one_file (render_all twice_lines))
              "entity.config" stale
              [Plain [] true]
              [Entry (lit "comment") (lit "the name again") [] true]
              [Entry (lit "auth.port.number") (lit "9000") (lit " # default") true;
               Entry (lit "network.protocol") (lit "TCP") [] false]
              F_name (lit "deviceA") [] (lit "deviceB") [] true true)
    as (c & s & Hload & Hholds & Hstr).
  - exact example_header_ok.
  - compute_done.
  - vm_compute. reflexivity.
  - vm_compute. reflexivity.
  - exists c, s. split; [exact Hload|]. split; [exact Hholds|].
    destruct Hstr as [Hlater Hfirst]; [vm_compute; lia|].
    split; [exact Hlater|]. apply Hfirst. vm_compute. discriminate.
Defined.

(** C7 fails as stated: a name of 40 characters is cut to the 32 of the
    member, which is left without terminator, and the run prints the banner
    and the progress line with all 40 characters, nothing else. *)
Lemma truncation_counterexample :
  exists c s,
    load_config_t example_header
      (one_file (lit "entityInfo.name=" ++ long_name ++ [NL])) "entity.config" stale
    = Ok c s /\
    name c = take 32 long_name /\ c_str (name c) = None /\
    printed (events s) = [banner; lit "name: " ++ long_name ++ [NL]].
Proof. eexists _, _. split; [vm_compute; reflexivity|]. by vm_compute. Qed.

Lemma load_truncates_silently_witness :
  (forall fs' path',
     match load_config_t example_header fs' path' stale with
     | Ok c _ => sized example_header c
     | Undefined _ _ => True
     | OutOfFuel _ => False
     end) /\
  exists c s,
    load_config_t example_header
      (one_file (render_all [Entry (lit "entityInfo.name") long_name [] true]))
      "entity.config" stale = Ok c s /\
    member F_name c = take 32 (long_name ++ [NL]) /\ c_str (member F_name c) = None /\
    printed (events s)
    = banner :: concat (line_output <$> [Entry (lit "entityInfo.name") long_name [] true]).
Proof.
  apply (load_truncates_silently example_header
           (one_file (render_all [Entry (lit "entityInfo.name") long_name [] true]))
           "entity.config" stale [Entry (lit "entityInfo.name") long_name [] true]
           F_name (long_name ++ [NL])).
  - exact example_header_ok.
  - exact stale_sized.
  - discriminate.
  - compute_done.
  - vm_compute. reflexivity.
  - vm_compute. reflexivity.
  - vm_compute. lia.
Defined.

(** C9 fails as stated: where the file ends behind the ['='] the run ends
    in undefined behaviour with the stream open. *)
Lemma open_stream_counterexample :
  exists s,
    load_config_t example_header (one_file (lit "entityInfo.name=")) "entity.config"
      stale = Undefined UB_null_string s /\
    fp s = Some {| unread := []; eof_indicator := true; is_open := true |} /\
    Fclose ∉ events s.
Proof. eexists. split; [vm_compute; reflexivity|]. split; [done|]. compute_done. Qed.

Lemma load_closes_on_return_witness :
  match load_config_t example_header (one_file example_config) "entity.config" stale with
  | Ok c s =>
      (exists f, fp s = Some f /\ is_open f = false) /\
      last (events s) = Some Fclose
  | Undefined u s =>
      (forall f, fp s = Some f -> is_open f = true) /\ Fclose ∉ events s
  | OutOfFuel _ => False
  end.
Proof.
  apply (load_closes_on_return example_header (one_file example_config)
           "entity.config" stale).
  vm_compute. lia.
Defined.

(** C10 fails as stated: a file whose last line has no newline ends the
    loop with that line; [fgets] never returns null. *)
Lemma no_extra_round_counterexample :
  exists c s,
    load_config_t example_header (one_file (lit "entityInfo.name=devA"))
      "entity.config" stale = Ok c s /\
    (Fgets None ∉ events s) /\ ~ extra_round (events s).
Proof.
  eexists _, _. split; [vm_compute; reflexivity|].
  assert (Fgets None ∉
          [Printf banner; Fgets (Some 0%nat); Strtok (Some 0%nat) [EQS] (Some 0%nat);
           Strtok None [SP] (Some 16%nat); Printf (lit "name: devA");
           Memcpy F_name 16; Fclose]) as Hnot by compute_done.
  split; [exact Hnot|]. intros (pre & r & post & Hev). apply Hnot.
  change (Fgets None ∈ [Printf banner; Fgets (Some 0%nat);
                        Strtok (Some 0%nat) [EQS] (Some 0%nat);
                        Strtok None [SP] (Some 16%nat); Printf (lit "name: devA");
                        Memcpy F_name 16; Fclose]).
  vm_compute in Hev. vm_compute. rewrite Hev. apply elem_of_app. right. left.
Qed.

Lemma load_extra_round_witness :
  match load_config_t example_header (one_file example_config) "entity.config" stale with
  | Ok _ s => extra_round (events s)
  | Undefined _ _ => True
  | OutOfFuel _ => False
  end /\
  (exists s,
     load_config_t example_header (one_file []) "entity.config" stale
     = Undefined UB_strtok_no_string s /\
     events s = [Printf banner; Fgets None]) /\
  match load_config_t example_header (one_file (render_all twice_lines))
          "entity.config" stale with
  | Ok _ s | Undefined _ s => Fgets None ∉ events s
  | OutOfFuel _ => False
  end.
Proof.
  apply (load_extra_round example_header (one_file example_config) (one_file [])
           (one_file (render_all twice_lines)) "entity.config" stale example_config
           (render_all (take 5 twice_lines)) (lit "network.protocol=TCP")).
  - vm_compute. lia.
  - vm_compute. reflexivity.
  - vm_compute. reflexivity.
  - vm_compute. reflexivity.
  - vm_compute. reflexivity.
  - right. vm_compute. reflexivity.
  - compute_done.
  - discriminate.
  - vm_compute. lia.
Defined.

(** * Further properties of the loader *)

(** ** A round of the loop, call by call *)

Lemma c_str_Some_inv (l t : list ascii) :
  c_str l = Some t -> (NUL ∉ t) /\ exists junk, l = t ++ NUL :: junk.
Proof.
  revert t. induction l as [|ch l IH]; intros t H; simpl in H; [done|].
  case_bool_decide as Hch.
  - simplify_eq. split; [apply not_elem_of_nil|]. by exists l.
  - destruct (c_str l) as [t'|] eqn:Hl; [|done]. simpl in H. simplify_eq.
    destruct (IH t' eq_refl) as [Hn [junk ->]]. split; [chars|]. by exists junk.
Qed.

Lemma fgets_ok (n : nat) (s s1 : state) (r : ptr) :
  fgets n s = Ok r s1 ->
  exists f l rest e,
    fp s = Some f /\ read_line (n - 1) (unread f) = (l, rest, e) /\
    fp s1 = Some {| unread := rest; eof_indicator := eof_indicator f || e;
                    is_open := is_open f |} /\
    c_obj s1 = c_obj s /\ strtok_save s1 = strtok_save s /\
    events s1 = events s ++ [Fgets r] /\
    ((r = None /\ e = true /\ l = [] /\ buffer s1 = buffer s) \/
     (r = Some 0%nat /\ (e = false \/ l <> []) /\
      buffer s1 = l ++ NUL :: drop (S (length l)) (buffer s))).
Proof.
  unfold fgets. intros H. destruct (fp s) as [f|]; [|done].
  destruct (read_line (n - 1) (unread f)) as [[l rest] e] eqn:Hread.
  exists f, l, rest, e. split; [done|]. split; [done|].
  destruct (e && bool_decide (l = [])) eqn:Hb; simplify_eq; simpl.
  - apply andb_true_iff in Hb as [-> Hl]. apply bool_decide_eq_true in Hl as ->.
    repeat split; try done. by left.
  - repeat split; try done. right. split; [done|]. split; [|done].
    apply andb_false_iff in Hb as [->|Hl]; [by left|right].
    by apply bool_decide_eq_false in Hl.
Qed.

Lemma case_body_ok (h : header) (k : field) (s s' : state) :
  case_body h k s = Ok tt s' ->
  exists i tok s1,
    strtok None [SP] s = Ok (Some i) s1 /\
    c_str (drop i (buffer s1)) = Some tok /\
    (i + sizeof h k <= length (buffer s1))%nat /\
    s' = emit (Memcpy k i)
           (set_c_obj (set_member k (take (sizeof h k) (drop i (buffer s1))) (c_obj s1))
              (emit (Printf (progress_line k tok)) s1)).
Proof.
  unfold case_body, bind. intros H.
  destruct (strtok None [SP] s) as [p s1| |] eqn:Hstrtok; [|done..].
  unfold printf, bind, read_string in H. destruct p as [i|]; [|done].
  destruct (c_str (drop i (buffer s1))) as [tok|] eqn:Htok; [|done].
  unfold modify, memcpy in H. simpl in H. case_decide; [|done]. simplify_eq.
  by exists i, tok, s1.
Qed.

Lemma switch_ok (h : header) (v : Z) (s s' : state) :
  switch h v s = Ok tt s' ->
  s' = s \/ exists k, v = tag h k /\ case_body h k s = Ok tt s'.
Proof.
  unfold switch, ENTITY_INFO_NAME, ENTITY_INFO_PURPOSE, ENTITY_INFO_NUMKEY,
    AUTH_INFO_PUBKEY_PATH, ENTITY_INFO_PRIVKEY_PATH, AUTH_INFO_IP_ADDRESS,
    AUTH_INFO_PORT, ENTITY_SERVER_INFO_IP_ADDRESS, ENTITY_SERVER_INFO_PORT_NUMBER,
    NETWORK_PROTOCOL.
  intros H.
  repeat match type of H with
  | (if ?v =? ?t then _ else _) _ = _ =>
      destruct (Z.eqb_spec v t) as [Heq|_]; [right; eexists; by split|]
  end.
  left. unfold ret in H. by simplify_eq.
Qed.

Lemma tokenize_ok (h : header) (pline : ptr) (s s' : state) :
  tokenize h pline s = Ok tt s' ->
  exists r s1,
    strtok pline [EQS] s = Ok r s1 /\
    (s' = s1 \/ exists k, case_body h k s1 = Ok tt s').
Proof.
  unfold tokenize, bind. intros H.
  destruct (strtok pline [EQS] s) as [r s1| |] eqn:Hstrtok; [|done..].
  exists r, s1. split; [done|].
  destruct r as [i|]; [|left; unfold ret in H; by simplify_eq].
  destruct (read_string (Some i) s1) as [key s2| |] eqn:Hread; [|done..].
  apply read_string_state in Hread as ->.
  apply switch_ok in H as [->|(k & _ & Hcase)]; [by left|right; by exists k].
Qed.

(** The calls of a round that ends: [fgets], [strtok] for the key, and for
    a key the loader knows [strtok] for the value, [printf] and [memcpy],
    which writes the characters from the token on to the member. *)
Lemma loop_body_ok (h : header) (s s' : state) :
  loop_body h s = Ok tt s' ->
  exists pline r,
    (c_obj s' = c_obj s /\ events s' = events s ++ [Fgets pline; Strtok pline [EQS] r]) \/
    (exists k i tok junk,
       c_obj s' = set_member k (take (sizeof h k) (tok ++ NUL :: junk)) (c_obj s) /\
       events s'
       = events s ++ [Fgets pline; Strtok pline [EQS] r; Strtok None [SP] (Some i);
                      Printf (progress_line k tok); Memcpy k i]).
Proof.
  unfold loop_body, bind. intros H.
  destruct (fgets (MAX h) s) as [pline s1| |] eqn:Hfgets; [|done..].
  apply fgets_ok in Hfgets as (f & l & rest & e & _ & _ & _ & Hc1 & _ & Hev1 & _).
  apply tokenize_ok in H as (r & s2 & Hstrtok & Hrest).
  pose proof (strtok_c_obj _ _ _ _ _ Hstrtok) as Hc2.
  apply strtok_events in Hstrtok as [_ Hev2].
  exists pline, r. destruct Hrest as [->|[k Hcase]].
  - left. split; [congruence|]. by rewrite Hev2, Hev1, <- app_assoc.
  - right. apply case_body_ok in Hcase as (i & tok & s3 & Hstrtok & Htok & _ & ->).
    pose proof (strtok_c_obj _ _ _ _ _ Hstrtok) as Hc3.
    apply strtok_events in Hstrtok as [_ Hev3].
    apply c_str_Some_inv in Htok as [_ [junk Hjunk]].
    exists k, i, tok, junk. simpl. rewrite Hjunk. split; [congruence|].
    rewrite Hev3, Hev2, Hev1, <- !app_assoc. done.
Qed.

(** What every round that ends keeps, holds when the loop ends. *)
Lemma while_ok_invariant (h : header) (I : state -> Prop) :
  (forall s s', I s -> loop_body h s = Ok tt s' -> I s') ->
  forall fuel s s', I s -> while_not_feof h fuel s = Ok tt s' ->
  I s' /\ exists f, fp s' = Some f /\ eof_indicator f = true.
Proof.
  intros Hbody. induction fuel as [|fuel IH]; intros s s' HI H; [done|].
  simpl in H. unfold bind at 1 in H. unfold feof in H.
  destruct (fp s) as [f|] eqn:Hf; [|done].
  destruct (eof_indicator f) eqn:Heof.
  - unfold ret in H. simplify_eq. split; [done|]. by exists f.
  - unfold bind in H. destruct (loop_body h s) as [[] s1| |] eqn:Hloop; [|done..].
    eapply IH; [|done]. by eapply Hbody.
Qed.

Lemma load_config_t_ok (h : header) (fs : file_system) (path : string)
    (heap c : config_t) (s : state) :
  load_config_t h fs path heap = Ok c s ->
  exists s2 f,
    while_not_feof h (fuel_for (initial_state h fs path heap))
      (emit (Printf banner) (initial_state h fs path heap)) = Ok tt s2 /\
    fp s2 = Some f /\ c = c_obj s2 /\
    s = emit Fclose
          (set_fp (Some {| unread := unread f; eof_indicator := eof_indicator f;
                           is_open := false |}) s2).
Proof.
  unfold load_config_t. unfold bind at 1. unfold printf0, modify.
  unfold bind at 1. intros H.
  destruct (while_not_feof _ _ _) as [[] s2| |]; [|done..].
  unfold bind at 1 in H. unfold fclose in H. destruct (fp s2) as [f|] eqn:Hf; [|done].
  unfold bind, get, ret in H. simplify_eq. by exists s2, f.
Qed.

Lemma last_token_snoc (k : field) (ws : list (field * list ascii)) (w : field * list ascii) :
  last_token k (ws ++ [w])
  = if decide (w.1 = k) then Some w.2 else last_token k ws.
Proof.
  induction ws as [|w' ws IH]; simpl; [done|]. rewrite IH.
  case_decide; [done|]. done.
Qed.

Lemma written_app (e1 e2 : list event) : written (e1 ++ e2) = written e1 ++ written e2.
Proof. apply omap_app. Qed.

Lemma loop_body_agrees (h : header) (heap : config_t) (s s' : state) :
  (exists ws, agrees h heap ws (c_obj s) (events s)) ->
  loop_body h s = Ok tt s' ->
  exists ws, agrees h heap ws (c_obj s') (events s').
Proof.
  intros [ws (Hw & Hp & Hm)] Hbody.
  apply loop_body_ok in Hbody as (pline & r & [[Hc Hev]|(k & i & tok & junk & Hc & Hev)]).
  - exists ws. unfold agrees. rewrite Hc, Hev, written_app, printed_app. simpl.
    by rewrite !app_nil_r.
  - exists (ws ++ [(k, tok)]). unfold agrees.
    rewrite Hc, Hev, written_app, printed_app, !fmap_app. simpl.
    rewrite Hw, Hp. split; [done|]. split; [done|].
    intros k'. rewrite last_token_snoc. simpl. specialize (Hm k').
    destruct (decide (k = k')) as [<-|Hk].
    + exists junk. by rewrite member_set_member, decide_True.
    + destruct (last_token k' ws) as [tok'|].
      * destruct Hm as [junk' Hm]. exists junk'.
        by rewrite member_set_member, decide_False.
      * by rewrite member_set_member, decide_False.
Qed.

(** X2. Whatever the file: when the loader returns, the record and what
    was printed agree. There is a list of writes, each a member and a token,
    such that [memcpy] was called for these members in this order, the
    output is the banner followed by the progress line of each write and
    nothing else, every member written holds the token of its last write
    (the characters from the token on, cut at the size of the member), and
    every other member is as it was in the storage [malloc] returned. *)
Theorem load_record_matches_output (h : header) (fs : file_system) (path : string)
    (heap c : config_t) (s : state) :
  load_config_t h fs path heap = Ok c s ->
  exists ws, agrees h heap ws c (events s).
Proof.
  intros Hload. apply load_config_t_ok in Hload as (s2 & f & Hwhile & _ & -> & ->).
  apply (while_ok_invariant h (fun s => exists ws, agrees h heap ws (c_obj s) (events s)))
    in Hwhile as [[ws (Hw & Hp & Hm)] _].
  - exists ws. unfold agrees. simpl. rewrite written_app, printed_app. simpl.
    by rewrite !app_nil_r.
  - apply loop_body_agrees.
  - exists []. by repeat split.
Qed.

Lemma loop_body_eof_at_end (h : header) (s s' : state) :
  eof_at_end s -> loop_body h s = Ok tt s' -> eof_at_end s'.
Proof.
  unfold loop_body, bind. intros Hs H.
  destruct (fgets (MAX h) s) as [pline s1| |] eqn:Hfgets; [|done..].
  pose proof (ends_in_tokenize h _ (same_stream_closed h) pline s1) as Htok.
  rewrite H in Htok. destruct Htok as [Hfp _].
  apply fgets_ok in Hfgets as (f & l & rest & e & Hf & Hread & Hf1 & _).
  unfold eof_at_end. rewrite Hfp, Hf1. intros f' [= <-]. simpl.
  intros [Heof|He]%orb_true_iff; [|subst e].
  - specialize (Hs f Hf Heof). rewrite Hs in Hread.
    destruct (MAX h - 1)%nat; simpl in Hread; by simplify_eq.
  - clear -Hread. revert Hread. generalize (MAX h - 1)%nat, (unread f). intros n u.
    revert u l. induction n as [|n IH]; intros u l Hread; simpl in Hread; [done|].
    destruct u as [|ch u]; [by simplify_eq|].
    case_bool_decide; [done|].
    destruct (read_line n u) as [[l' r'] e'] eqn:Hrec. simplify_eq. by eapply IH.
Qed.

(** X3. Whatever the file: the loader returns only when the stream is at
    its end, with nothing of the file left to read. *)
Theorem load_reads_whole_file (h : header) (fs : file_system) (path : string)
    (heap c : config_t) (s : state) :
  load_config_t h fs path heap = Ok c s ->
  exists f, fp s = Some f /\ unread f = [] /\ eof_indicator f = true.
Proof.
  intros Hload. apply load_config_t_ok in Hload as (s2 & f & Hwhile & Hf & -> & ->).
  apply (while_ok_invariant h eof_at_end) in Hwhile as [Hend (f' & Hf' & Heof)].
  - rewrite Hf in Hf'. simplify_eq.
    eexists. split; [done|]. simpl. split; [|done]. by apply Hend.
  - apply loop_body_eof_at_end.
  - unfold eof_at_end, initial_state, fopen. simpl. intros f'.
    destruct (fs path); [|done]. by intros [= <-].
Qed.

(** ** Scans that stay inside [buffer] *)

Lemma strspn_le (l delim : list ascii) (j : nat) :
  l !! j = Some NUL -> (strspn l delim <= j)%nat.
Proof.
  revert j. induction l as [|ch l IH]; intros j Hj; [done|].
  simpl. case_bool_decide as Hch; [lia|].
  destruct j as [|j]; [by simplify_eq/=|]. simpl in Hj.
  case_bool_decide; [|lia]. specialize (IH j Hj). lia.
Qed.

Lemma strcspn_le (l delim : list ascii) (j : nat) :
  l !! j = Some NUL -> (strcspn l delim <= j)%nat.
Proof.
  revert j. induction l as [|ch l IH]; intros j Hj; [done|].
  simpl. case_bool_decide as Hch; [lia|].
  destruct j as [|j]; [by simplify_eq/=|]. simpl in Hj.
  case_bool_decide; [lia|]. specialize (IH j Hj). lia.
Qed.

Lemma c_str_is_Some (l : list ascii) (j : nat) :
  l !! j = Some NUL -> is_Some (c_str l).
Proof.
  revert j. induction l as [|ch l IH]; intros j Hj; [done|].
  simpl. case_bool_decide as Hch; [done|].
  destruct j as [|j]; [by simplify_eq/=|]. simpl in Hj.
  destruct (IH j Hj) as [t ->]. done.
Qed.

Lemma read_line_length (n : nat) (u l r : list ascii) (e : bool) :
  read_line n u = (l, r, e) -> (length l <= n)%nat.
Proof.
  revert u l r e. induction n as [|n IH]; intros u l r e H; simpl in H.
  - simplify_eq. done.
  - destruct u as [|ch u]; [simplify_eq; simpl; lia|].
    case_bool_decide; [simplify_eq; simpl; lia|].
    destruct (read_line n u) as [[l' r'] e'] eqn:Hrec. simplify_eq.
    apply IH in Hrec. simpl. lia.
Qed.

Section Safe.

Variable h : header.
Hypothesis HMAX : (2 <= MAX h)%nat.

(** A terminator further on in [buffer], seen from offset [p]. *)
Lemma terminator_ahead (s : state) (p : nat) :
  scan_safe h s -> (p < MAX h)%nat ->
  drop p (buffer s) !! (MAX h - 1 - p)%nat = Some NUL.
Proof.
  intros (_ & _ & Hlast & _) Hp. rewrite lookup_drop.
  by replace (p + (MAX h - 1 - p))%nat with (MAX h - 1)%nat by lia.
Qed.

Lemma scan_safe_insert (s : state) (e p : nat) (evs : list event) :
  scan_safe h s -> (e < MAX h - 1)%nat -> (p < MAX h)%nat ->
  scan_safe h
    {| c_obj := c_obj s; fp := fp s; buffer := <[e := NUL]> (buffer s);
       strtok_save := Some p; events := evs |}.
Proof.
  intros (Hfp & Hlen & Hlast & Hsave) He Hp. unfold scan_safe. simpl.
  split; [done|]. split; [by rewrite length_insert|]. split.
  - rewrite list_lookup_insert_ne by lia. done.
  - by intros ? [= <-].
Qed.

Lemma scan_safe_save (s : state) (p : nat) (evs : list event) :
  scan_safe h s -> (p < MAX h)%nat ->
  scan_safe h
    {| c_obj := c_obj s; fp := fp s; buffer := buffer s;
       strtok_save := Some p; events := evs |}.
Proof.
  intros (Hfp & Hlen & Hlast & Hsave) Hp. unfold scan_safe. simpl.
  split; [done|]. split; [done|]. split; [done|]. by intros ? [= <-].
Qed.

(** [strtok] on a scan that starts inside [buffer]: it finds the
    terminator before the end of [buffer], and resumes inside. *)
Lemma strtok_safe (str : ptr) (delim : list ascii) (s : state) (p : nat) :
  scan_safe h s -> scan_start str s = Some p -> (p < MAX h)%nat ->
  exists r s',
    strtok str delim s = Ok r s' /\ scan_safe h s' /\ is_Some (strtok_save s') /\
    (forall i, r = Some i -> (i < MAX h)%nat).
Proof.
  intros Hsafe Hstart Hp. pose proof Hsafe as (Hfp & Hlen & Hlast & Hsave).
  unfold strtok. cbv zeta.
  assert (match str with Some p => Some p | None => strtok_save s end = Some p)
    as -> by done.
  destruct (lookup_lt_is_Some_2 (buffer s) p) as [ch Hch]; [lia|]. rewrite Hch.
  case_bool_decide as HchNUL.
  { eexists _, _. split; [done|]. split; [exact (scan_safe_save s p _ Hsafe Hp)|].
    split; [by eexists|done]. }
  pose proof (strspn_le _ delim _ (terminator_ahead s p Hsafe Hp)) as Hspn.
  set (p1 := (p + strspn (drop p (buffer s)) delim)%nat) in *.
  assert (p1 < MAX h)%nat as Hp1 by lia.
  destruct (lookup_lt_is_Some_2 (buffer s) p1) as [ch1 Hch1]; [lia|]. rewrite Hch1.
  case_bool_decide as Hch1NUL.
  { eexists _, _. split; [done|]. split; [exact (scan_safe_save s p1 _ Hsafe Hp1)|].
    split; [by eexists|done]. }
  pose proof (strcspn_le _ delim _ (terminator_ahead s p1 Hsafe Hp1)) as Hcspn.
  set (e := (p1 + strcspn (drop p1 (buffer s)) delim)%nat) in *.
  assert (e < MAX h)%nat as He by lia.
  destruct (lookup_lt_is_Some_2 (buffer s) e) as [che Hche]; [lia|]. rewrite Hche.
  case_bool_decide as HcheNUL.
  { eexists _, _. split; [done|]. split; [exact (scan_safe_save s e _ Hsafe He)|].
    split; [by eexists|]. by intros ? [= <-]. }
  assert (e < MAX h - 1)%nat as He'.
  { destruct (decide (e = MAX h - 1)%nat) as [Heq|]; [|lia].
    rewrite Heq, Hlast in Hche. by simplify_eq. }
  assert (S e < MAX h)%nat as HSe by lia.
  eexists _, _. split; [done|].
  split; [exact (scan_safe_insert s e (S e) _ Hsafe He' HSe)|].
  split; [by eexists|]. by intros ? [= <-].
Qed.

Lemma read_string_safe (s : state) (i : nat) :
  scan_safe h s -> (i < MAX h)%nat -> exists t, read_string (Some i) s = Ok t s.
Proof.
  intros Hsafe Hi. unfold read_string.
  destruct (c_str_is_Some _ _ (terminator_ahead s i Hsafe Hi)) as [t ->]. by exists t.
Qed.

Lemma case_body_safe (k : field) (s : state) :
  scan_safe h s -> is_Some (strtok_save s) ->
  match case_body h k s with
  | Ok _ s' => scan_safe h s' /\ is_Some (strtok_save s')
  | Undefined u s' => fault h u s'
  | OutOfFuel _ => False
  end.
Proof.
  intros Hsafe [p Hp]. unfold case_body, bind.
  destruct (strtok_safe None [SP] s p Hsafe Hp) as (r & s1 & Hstrtok & Hsafe1 & Hsome1 & Hr).
  { by apply Hsafe. }
  rewrite Hstrtok. apply strtok_events in Hstrtok as [_ Hev1].
  unfold printf, bind. destruct r as [i|].
  - destruct (read_string_safe s1 i Hsafe1) as [tok ->]; [by apply Hr|].
    unfold modify, memcpy. simpl. case_decide as Hfit.
    + split; [|done]. destruct Hsafe1 as (? & ? & ? & ?). by repeat split.
    + simpl. exists (events s), k, i, tok. rewrite Hev1, <- app_assoc. split; [done|].
      destruct Hsafe1 as (_ & Hlen & _). lia.
  - simpl. by exists (events s).
Qed.

Lemma tokenize_safe (pline : ptr) (s : state) (p : nat) :
  scan_safe h s -> scan_start pline s = Some p -> (p < MAX h)%nat ->
  match tokenize h pline s with
  | Ok _ s' => scan_safe h s' /\ is_Some (strtok_save s')
  | Undefined u s' => fault h u s'
  | OutOfFuel _ => False
  end.
Proof.
  intros Hsafe Hstart Hp. unfold tokenize, bind.
  destruct (strtok_safe pline [EQS] s p Hsafe Hstart Hp)
    as (r & s1 & -> & Hsafe1 & Hsome1 & Hr).
  destruct r as [i|]; [|done].
  destruct (read_string_safe s1 i Hsafe1) as [key ->]; [by apply Hr|].
  generalize (get_key_value h key). intros v. unfold switch.
  repeat (destruct (_ =? _); [by apply case_body_safe|]). done.
Qed.

Lemma fgets_safe (s : state) :
  scan_safe h s -> scan_ready s ->
  exists r s1,
    fgets (MAX h) s = Ok r s1 /\ scan_safe h s1 /\
    exists p, scan_start r s1 = Some p /\ (p < MAX h)%nat.
Proof.
  intros Hsafe Hready. pose proof Hsafe as ([f Hf] & Hlen & Hlast & Hsave).
  destruct (fgets (MAX h) s) as [r s1| |] eqn:Hfgets.
  2,3: unfold fgets in Hfgets; rewrite Hf in Hfgets;
       destruct (read_line _ _) as [[? ?] ?]; by destruct (_ && _).
  exists r, s1. split; [done|].
  apply fgets_ok in Hfgets
    as (f' & l & rest & e & Hf' & Hread & Hf1 & _ & Hsave1 & _ & Hcases).
  rewrite Hf in Hf'. simplify_eq.
  destruct Hcases as [(-> & -> & -> & Hbuf)|(-> & _ & Hbuf)].
  - assert (unread f' = []) as Hnil.
    { destruct (MAX h - 1)%nat eqn:HM; [lia|]. simpl in Hread.
      destruct (unread f') as [|ch u]; [done|]. case_bool_decide; [done|].
      by destruct (read_line n u) as [[? ?] ?]. }
    destruct Hready as [[p Hp]|(f & Hf'' & Hne)]; [|rewrite Hf in Hf''; by simplify_eq].
    split.
    + unfold scan_safe. rewrite Hf1, Hbuf, Hsave1. by repeat split.
    + exists p. simpl. rewrite Hsave1. split; [done|]. by apply Hsave.
  - apply read_line_length in Hread. split.
    + unfold scan_safe. rewrite Hf1, Hbuf, Hsave1. split; [done|].
      split; [rewrite length_app; simpl; rewrite length_drop; lia|]. split; [|done].
      destruct (decide (length l = MAX h - 1)%nat) as [Heq|Hneq].
      * rewrite <- Heq. by apply list_lookup_middle.
      * rewrite lookup_app_r by lia.
        replace (MAX h - 1 - length l)%nat with (S (MAX h - 1 - length l - 1)) by lia.
        simpl. rewrite lookup_drop. rewrite <- Hlast. f_equal. lia.
    + exists 0%nat. split; [done|]. lia.
Qed.

Lemma loop_body_safe (s : state) :
  scan_safe h s -> scan_ready s ->
  match loop_body h s with
  | Ok _ s' => scan_safe h s' /\ scan_ready s'
  | Undefined u s' => fault h u s'
  | OutOfFuel _ => False
  end.
Proof.
  intros Hsafe Hready. unfold loop_body, bind.
  destruct (fgets_safe s Hsafe Hready) as (r & s1 & -> & Hsafe1 & p & Hstart & Hp).
  pose proof (tokenize_safe r s1 p Hsafe1 Hstart Hp) as Htok.
  destruct (tokenize h r s1); [|done..]. destruct Htok. split; [done|by left].
Qed.

Lemma while_safe (fuel : nat) (s : state) :
  scan_safe h s -> scan_ready s ->
  match while_not_feof h fuel s with
  | Ok _ s' => scan_safe h s'
  | Undefined u s' => fault h u s'
  | OutOfFuel _ => True
  end.
Proof.
  revert s. induction fuel as [|fuel IH]; intros s Hsafe Hready; [done|].
  simpl. unfold bind at 1. unfold feof.
  destruct Hsafe as ([f Hf] & Hrest). rewrite Hf.
  assert (scan_safe h s) as Hsafe by (split; [by exists f|done]).
  destruct (eof_indicator f); [done|]. unfold bind.
  pose proof (loop_body_safe s Hsafe Hready) as Hbody.
  destruct (loop_body h s) as [[] s1| |]; [|done..].
  apply IH; tauto.
Qed.

End Safe.

(** X4. For every file that is there and not empty, the loader goes wrong in
    two ways only. Either [strtok(NULL, " ")] found no value behind a key
    and returned null, which [printf] is then to print as a string; or a
    value was found and printed, and the [sizeof] characters [memcpy] is to
    copy from its start do not all lie in [buffer]. In particular no stream
    function gets a null stream, [strtok] always has a string to scan, and
    neither [strtok], [get_key_value] nor [printf] ever reads past the end
    of [buffer]: a terminator always stands in its last place. *)
Theorem load_faults (h : header) (fs : file_system) (path : string) (heap : config_t)
    (content : list ascii) :
  (2 <= MAX h)%nat -> fs path = Some content -> content <> [] ->
  match load_config_t h fs path heap with
  | Ok _ _ => True
  | Undefined u s => fault h u s
  | OutOfFuel _ => False
  end.
Proof.
  intros HMAX Hfs Hne.
  pose proof (load_config_t_run h fs path heap HMAX) as Hrun.
  unfold load_config_t in *.
  set (s0 := initial_state h fs path heap) in *.
  unfold bind at 1 in Hrun. unfold bind at 1. unfold printf0, modify in *.
  set (s1 := emit _ s0) in *.
  assert (fp s1 = Some {| unread := content; eof_indicator := false; is_open := true |})
    as Hfp1 by (by unfold s1, s0, initial_state, fopen; simpl; rewrite Hfs).
  pose proof (while_safe h HMAX (fuel_for s0) s1) as Hwhile.
  unfold bind at 1 in Hrun. unfold bind at 1.
  destruct (while_not_feof h (fuel_for s0) s1) as [[] s2|u s2|s2]; [| |done].
  - unfold bind at 1. unfold fclose.
    destruct Hwhile as ([f ->] & _); [| |done].
    + unfold scan_safe. rewrite Hfp1. simpl. split; [done|].
      split; [apply length_replicate|]. split; [|done].
      apply lookup_replicate. split; [done|lia].
    + right. eexists. by split.
  - apply Hwhile.
    + unfold scan_safe. rewrite Hfp1. simpl. split; [done|].
      split; [apply length_replicate|]. split; [|done].
      apply lookup_replicate. split; [done|lia].
    + right. eexists. by split.
Qed.

(** ** One key a line, and the last line *)



(** X7. A key name alone at the end of the file. When the file ends with
    the name of a key, with no ['='] and no newline behind it, the first
    token of that line is the key name: [strtok(NULL, " ")] returns null,
    and [printf] is called with it as the string to print: the behaviour of
    the loader is undefined from that call on. Up to that call the lines
    before have been stored and their progress lines printed. (With a
    newline behind it the token is the name and the newline, which is no
    key.) *)
Theorem load_key_name_at_eof (h : header) (fs : file_system) (path : string)
    (heap : config_t) (ls : list line) (k : field) :
  header_ok h -> Forall (inner_line_ok h) ls ->
  (length (key_string k) + 1 < MAX h)%nat ->
  fs path = Some (render_all ls ++ key_string k) ->
  exists s,
    load_config_t h fs path heap = Undefined UB_null_string s /\
    last (events s) = Some (Strtok None [SP] None) /\
    members_after h ls heap (c_obj s) /\
    printed (events s) = banner :: concat (line_output <$> ls).
Proof.
  intros Hh Hok Hfit Hfs.
  pose proof (key_string_nonempty k) as Hkne. pose proof (key_string_NUL k) as Hknul.
  pose proof (key_string_NL k) as Hknl. pose proof (key_string_EQS k) as Hkeq.
  destruct (load_inner_lines h Hh fs path heap ls _ Hok Hfs)
    as (s1 & fuel & Hfuel & -> & Hread1 & Hlen1 & Hmem1 & Hp1).
  assert (key_string k = key_string k ++ eol false ++ []) as Hshape
    by (simpl; by rewrite app_nil_r).
  pose proof Hread1 as Hread1'. rewrite Hshape in Hread1'.
  destruct (fgets_line_state h s1 _ [] false Hread1')
    as (s2 & junk & Hfgets & Hbuf2 & Heof2 & Hc2 & Hp2 & Hlen2); [done..|].
  simpl in Hbuf2.
  pose proof (strtok_last_token (Some 0%nat) [EQS] s2 [] (key_string k) junk eq_refl Hbuf2 Hkne Hknul)
    as Hstrtok2.
  match type of Hstrtok2 with _ -> _ = Ok _ ?s => set (s3 := s) in * end.
  assert (loop_body h s1 = Undefined UB_null_string
            (emit (Strtok None [SP] None)
               (set_strtok_save (Some (length (key_string k))) s3))) as Hround.
  { unfold loop_body, bind. rewrite Hfgets. unfold tokenize, bind.
    rewrite Hstrtok2 by chars.
    rewrite (read_string_at s3 [] (key_string k) junk); [|done|done].
    rewrite get_key_value_key, (switch_tag h Hh). unfold case_body, bind.
    rewrite (strtok_at_end None [SP] s3 (length (key_string k))); [done|done|].
    unfold s3. simpl. rewrite Hbuf2. by apply list_lookup_middle. }
  destruct fuel as [|fuel]; [lia|].
  rewrite (load_round_undefined h fuel s1 _ _ _ Hread1 Hround).
  eexists. split; [done|]. simpl. split; [by rewrite last_snoc|].
  split; [by rewrite Hc2|].
  rewrite !printed_app. simpl. by rewrite !app_nil_r, Hp2.
Qed.

(** ** Delimiters before a token *)



Section Skip.

Variable h : header.
Hypothesis Hh : header_ok h.


End Skip.


(** X9. The copy reads past the buffer when the member is larger than what
    is left of the buffer behind the key. For a last line with a key name,
    ['='] and a value, where [sizeof] of the member is more than the
    characters of [buffer] from the value on: the progress line is printed,
    and [memcpy], which copies [sizeof] characters whatever the length of
    the value, is called to read past the end of [buffer]. The behaviour
    of the loader is undefined from that call on; the record and the output
    are stated as they stand when the call is made. *)
Theorem load_over_read (h : header) (fs : file_system) (path : string)
    (heap : config_t) (ls : list line) (k : field) (value : list ascii) (nl : bool) :
  header_ok h -> Forall (inner_line_ok h) ls ->
  value <> [] -> NUL ∉ value -> NL ∉ value -> SP ∉ value ->
  (length (key_string k) + 1 + length value + 1 < MAX h)%nat ->
  (MAX h < length (key_string k) + 1 + sizeof h k)%nat ->
  fs path = Some (render_all ls ++ key_string k ++ EQS :: value ++ eol nl) ->
  exists s,
    load_config_t h fs path heap = Undefined UB_out_of_bounds s /\
    last (events s) = Some (Printf (progress_line k (value ++ eol nl))) /\
    members_after h ls heap (c_obj s) /\
    printed (events s)
    = banner :: concat (line_output <$> ls) ++ [progress_line k (value ++ eol nl)].
Proof.
  intros Hh Hok Hne Hnul Hnl Hsp Hfit Hsize Hfs.
  pose proof (key_string_nonempty k) as Hkne. pose proof (key_string_NUL k) as Hknul.
  pose proof (key_string_NL k) as Hknl. pose proof (key_string_EQS k) as Hkeq.
  destruct (load_inner_lines h Hh fs path heap ls _ Hok Hfs)
    as (s1 & fuel & Hfuel & -> & Hread1 & Hlen1 & Hmem1 & Hp1).
  assert (key_string k ++ EQS :: value ++ eol nl
          = (key_string k ++ EQS :: value) ++ eol nl ++ []) as Hshape.
  { rewrite app_nil_r. shape. }
  pose proof Hread1 as Hread1'. rewrite Hshape in Hread1'.
  destruct (fgets_line_state h s1 _ [] nl Hread1')
    as (s2 & junk & Hfgets & Hbuf2 & Hstream2 & Hc2 & Hp2 & Hlen2).
  { chars. }
  { lens. }
  { intros _. split; [done|]. by destruct (key_string k). }
  { done. }
  assert (buffer s2 = key_string k ++ EQS :: (value ++ eol nl) ++ NUL :: junk)
    as Hbuf2' by (rewrite Hbuf2; shape).
  pose proof (tokenize_key h s2 (key_string k) _ Hbuf2' Hkne Hknul Hkeq) as Htok2.
  rewrite get_key_value_key, (switch_tag h Hh) in Htok2.
  match type of Htok2 with _ = case_body _ _ ?s => set (s2' := s) in * end.
  assert (length (buffer s2') = MAX h) as Hlen2'.
  { rewrite <- Hlen2, Hbuf2'. unfold s2'. lens. }
  pose proof (strtok_last_token None [SP] s2' (key_string k ++ [NUL]) (value ++ eol nl) junk)
    as Hstrtok.
  match type of Hstrtok with _ -> _ -> _ -> _ -> _ -> _ = Ok _ ?s => set (s3 := s) in * end.
  assert (loop_body h s1
          = Undefined UB_out_of_bounds
              (emit (Printf (progress_line k (value ++ eol nl))) s3)) as Hround.
  { unfold loop_body, bind. rewrite Hfgets, Htok2. unfold case_body, bind.
    rewrite Hstrtok.
    - unfold printf, bind.
      rewrite (read_string_at s3 (key_string k ++ [NUL]) (value ++ eol nl) junk).
      + unfold modify, memcpy. rewrite decide_False; [done|].
        change (buffer (emit _ s3)) with (buffer s2'). rewrite Hlen2'. lens.
      + unfold s3, s2'. shape.
      + destruct nl; simpl; chars.
    - unfold s2'. simpl. f_equal. lens.
    - unfold s2'. shape.
    - by destruct value.
    - destruct nl; simpl; chars.
    - destruct nl; simpl; chars. }
  destruct fuel as [|fuel]; [lia|].
  rewrite (load_round_undefined h fuel s1 _ _ _ Hread1 Hround).
  eexists. split; [done|]. simpl. split; [by rewrite last_snoc|].
  split; [by rewrite Hc2|].
  rewrite !printed_app. simpl. by rewrite !app_nil_r, Hp2, Hp1.
Qed.

(** A piece of a line that fills the buffer: [fgets] stops behind it. *)
Lemma read_line_full (n : nat) (l r : list ascii) :
  NL ∉ l -> length l = n -> read_line n (l ++ r) = (l, r, false).
Proof.
  revert n. induction l as [|ch l IH]; intros n Hl Hn; simpl in *.
  - by subst n.
  - destruct n; [lia|]. simpl. apply not_elem_of_cons in Hl as [? ?].
    rewrite bool_decide_eq_false_2 by done. rewrite IH; [done..|lia].
Qed.

(** X10. A line longer than the buffer is read in pieces, and each piece is
    handled as a line. When [MAX - 1] characters without newline stand
    before a line of the file (they and that line make one long line), the
    first round takes these characters as a line, which has no ['='] and is
    no key name, and the next round takes what follows as a new line: a key
    name and ['='] in the middle of a long line are acted on when they
    stand at such a boundary. *)
Theorem load_long_line (h : header) (fs : file_system) (path : string)
    (heap : config_t) (ls1 ls2 : list line) (piece : list ascii) :
  header_ok h -> Forall (inner_line_ok h) ls1 -> ls2 <> [] -> file_ok h ls2 ->
  length piece = (MAX h - 1)%nat ->
  NUL ∉ piece -> NL ∉ piece -> EQS ∉ piece -> (forall k, piece <> key_string k) ->
  fs path = Some (render_all ls1 ++ piece ++ render_all ls2) ->
  exists c s,
    load_config_t h fs path heap = Ok c s /\
    members_after h (ls1 ++ ls2) heap c /\
    printed (events s) = banner :: concat (line_output <$> (ls1 ++ ls2)).
Proof.
  intros Hh Hok1 Hne Hok2 Hlen Hnul Hnl Heq Hkey Hfs.
  pose proof (MAX_ge_2 h Hh) as HMAX.
  destruct (load_inner_lines h Hh fs path heap ls1 _ Hok1 Hfs)
    as (s1 & fuel & Hfuel & -> & Hread1 & Hlen1 & Hmem1 & Hp1).
  (* the round that reads the piece *)
  assert (fgets (MAX h) s1
          = Ok (Some 0%nat)
               (emit (Fgets (Some 0%nat))
                  (set_buffer (piece ++ [NUL])
                     (set_fp (Some {| unread := render_all ls2; eof_indicator := false;
                                      is_open := true |}) s1)))) as Hfgets.
  { unfold fgets. rewrite Hread1. simpl. rewrite read_line_full; [|done|done]. simpl.
    rewrite drop_ge by lia. done. }
  match type of Hfgets with _ = Ok _ ?s => set (s2 := s) in * end.
  destruct (tokenize_plain h Hh s2 piece [] eq_refl)
    as (s3 & Htok & (Hfp3 & Hlen3 & Hc3 & Hp3) & Hbuf3 & Hsave3); [|done..|].
  { destruct piece; [simpl in Hlen; lia|done]. }
  assert (loop_body h s1 = Ok tt s3) as Hround.
  { unfold loop_body, bind. by rewrite Hfgets. }
  rewrite length_app in Hfuel.
  destruct fuel as [|fuel]; [lia|].
  unfold bind at 1. rewrite (while_round h _ s1 s3 _ Hread1 Hround).
  (* the lines behind it *)
  destruct (while_lines h Hh ls2 s3 fuel Hok2) as (s4 & Hwhile & Heof & Hmem4 & Hp4).
  { rewrite Hlen3. unfold s2. simpl. rewrite length_app. simpl. lia. }
  { unfold reading. by rewrite Hfp3. }
  { done. }
  { pose proof (length_render_all h ls2 (proj1 Hok2)). lia. }
  rewrite Hwhile. unfold bind, fclose. rewrite Heof. simpl.
  eexists _, _. split; [done|]. split.
  - eapply members_after_app; [done|]. by rewrite Hc3 in Hmem4.
  - simpl. rewrite printed_app, Hp4, Hp3, line_output_app. unfold s2. simpl.
    rewrite !printed_app. simpl. by rewrite !app_nil_r, Hp1.
Qed.

(** ** The format with spaces around the ['='] *)

Lemma spaced_key_unknown (k : field) : field_of_key (key_string k ++ [SP]) = None.
Proof. apply field_of_key_None. intros k'. by destruct k, k'. Qed.

Lemma spaced_line_ok (h : header) (kv : field * list ascii) :
  spaced_ok h kv -> line_ok h (spaced_line kv).
Proof.
  intros (Hnul & Hnl & Heq & Hfit). destruct kv as [k v]. simpl in *.
  pose proof (key_string_NUL k). pose proof (key_string_NL k).
  pose proof (key_string_EQS k).
  rewrite spaced_key_unknown.
  split; [by destruct (key_string k)|].
  repeat split; try chars; try (by left).
  rewrite length_app. simpl. lia.
Qed.

Lemma spaced_lines_ok (h : header) (kvs : list (field * list ascii)) :
  Forall (spaced_ok h) kvs -> file_ok h (spaced_line <$> kvs).
Proof.
  intros Hok. split.
  - apply Forall_fmap. eapply Forall_impl; [done|]. apply spaced_line_ok.
  - clear Hok. induction kvs as [|kv kvs IH]; simpl; [done|]. by split.
Qed.

Lemma spaced_lines_value (k : field) (kvs : list (field * list ascii)) :
  last_value k (spaced_line <$> kvs) = None.
Proof.
  induction kvs as [|[k' v] kvs IH]; simpl; [done|].
  change (list_fmap _ _ spaced_line kvs) with (spaced_line <$> kvs). rewrite IH.
  rewrite decide_False; [done|]. intros Heq.
  pose proof (spaced_key_unknown k') as Hnone. rewrite Heq in Hnone.
  by rewrite field_of_key_key_string in Hnone.
Qed.

Lemma spaced_lines_output (kvs : list (field * list ascii)) :
  concat (line_output <$> (spaced_line <$> kvs)) = [].
Proof.
  induction kvs as [|[k v] kvs IH]; simpl; [done|].
  change (list_fmap _ _ spaced_line kvs) with (spaced_line <$> kvs).
  by rewrite spaced_key_unknown.
Qed.

(** X11. The format of the specification, [key = value] with a space on
    either side of the ['='], is not the format of the loader: in a file of
    such lines, whatever the keys and the values, the first token of every
    line is a key name and a space, which is no key. The loader returns the
    storage [malloc] gave it with no member written, and prints the banner
    only. *)
Theorem load_spaced_format (h : header) (fs : file_system) (path : string)
    (heap : config_t) (kvs : list (field * list ascii)) :
  header_ok h -> kvs <> [] -> Forall (spaced_ok h) kvs ->
  fs path = Some (render_all (spaced_line <$> kvs)) ->
  exists s, load_config_t h fs path heap = Ok heap s /\ printed (events s) = [banner].
Proof.
  intros Hh Hne Hok Hfs.
  destruct (load_lines h Hh fs path heap (spaced_line <$> kvs))
    as (c & s & Hload & Hmem & Hp & _); [by destruct kvs|by apply spaced_lines_ok|done|].
  assert (c = heap) as ->.
  { apply config_t_ext. intros k. specialize (Hmem k).
    by rewrite spaced_lines_value in Hmem. }
  exists s. split; [done|]. by rewrite spaced_lines_output in Hp.
Qed.

(** ** Two runs on different storage *)

Lemma lockstep_ret {A} (a : A) : lockstep (ret a).
Proof. intros s1 s2 Hs. by split. Qed.

Lemma lockstep_bind {A B} (m : M A) (f : A -> M B) :
  lockstep m -> (forall a, lockstep (f a)) -> lockstep (bind m f).
Proof.
  intros Hm Hf s1 s2 Hs. unfold bind. specialize (Hm s1 s2 Hs).
  destruct (m s1) as [a1 s1'|u1 s1'|s1'], (m s2) as [a2 s2'|u2 s2'|s2']; try done.
  destruct Hm as [-> Hs']. by apply Hf.
Qed.

(** A call that does not touch [*c], and is recorded as [e]. *)
Lemma alike_call (s1 s2 : state) (f1 f2 : option FILE) (b1 b2 : list ascii)
    (p1 p2 : ptr) (e : event) :
  alike s1 s2 -> f1 = f2 -> b1 = b2 -> p1 = p2 -> written [e] = [] ->
  alike {| c_obj := c_obj s1; fp := f1; buffer := b1; strtok_save := p1;
           events := events s1 ++ [e] |}
        {| c_obj := c_obj s2; fp := f2; buffer := b2; strtok_save := p2;
           events := events s2 ++ [e] |}.
Proof.
  intros (Hfp & Hbuf & Hsave & Hev & Hmem) -> -> -> He. unfold alike. simpl.
  rewrite written_app, He, app_nil_r.
  split; [done|]. split; [done|]. split; [done|]. split; [by rewrite Hev|done].
Qed.

Ltac same_call :=
  match goal with
  | Hs : alike ?a ?b |- _ =>
      let Hfp := fresh "Hfp" in let Hbuf := fresh "Hbuf" in let Hsave := fresh "Hsave" in
      pose proof Hs as (Hfp & Hbuf & Hsave & _);
      apply (alike_call a b); [exact Hs|simpl; congruence..|done]
  end.

Lemma lockstep_feof : lockstep feof.
Proof.
  intros s1 s2 Hs. pose proof Hs as (Hfp & _). unfold feof. rewrite Hfp.
  by destruct (fp s2).
Qed.

Lemma lockstep_fgets (n : nat) : lockstep (fgets n).
Proof.
  intros s1 s2 Hs. pose proof Hs as (Hfp & Hbuf & _). unfold fgets. rewrite Hfp, Hbuf.
  destruct (fp s2) as [f|]; [|done].
  destruct (read_line (n - 1) (unread f)) as [[l r] e].
  destruct (e && bool_decide (l = [])); (split; [done|]); same_call.
Qed.

Lemma lockstep_fclose : lockstep fclose.
Proof.
  intros s1 s2 Hs. pose proof Hs as (Hfp & _). unfold fclose.
  rewrite Hfp. destruct (fp s2) as [f|]; [|done]. split; [done|]. same_call.
Qed.

Lemma lockstep_strtok (str : ptr) (delim : list ascii) : lockstep (strtok str delim).
Proof.
  intros s1 s2 Hs. pose proof Hs as (Hfp & Hbuf & Hsave & _). unfold strtok. cbv zeta.
  rewrite Hbuf, Hsave.
  destruct (match str with Some p => Some p | None => strtok_save s2 end) as [p|]; [|done].
  repeat first [ destruct (buffer s2 !! _); [|done] | case_bool_decide ];
    (split; [done|]); same_call.
Qed.

Lemma lockstep_read_string (p : ptr) : lockstep (read_string p).
Proof.
  intros s1 s2 Hs. pose proof Hs as (_ & Hbuf & _). unfold read_string.
  destruct p as [i|]; [|done]. rewrite Hbuf.
  by destruct (c_str (drop i (buffer s2))).
Qed.

Lemma lockstep_printf (before : list ascii) (arg : ptr) (after : list ascii) :
  lockstep (printf before arg after).
Proof.
  apply lockstep_bind; [apply lockstep_read_string|].
  intros t s1 s2 Hs. pose proof Hs as (Hfp & Hbuf & Hsave & _).
  split; [done|]. same_call.
Qed.

Section Lockstep.

Variable h : header.

Lemma lockstep_memcpy (k : field) (src : ptr) : lockstep (memcpy h k src).
Proof.
  intros s1 s2 Hs. pose proof Hs as (Hfp & Hbuf & Hsave & Hev & Hmem). unfold memcpy.
  destruct src as [i|]; [|done]. rewrite Hbuf. case_decide; [|done].
  split; [done|]. unfold alike. simpl.
  split; [done|]. split; [done|]. split; [done|]. split; [by rewrite Hev|].
  intros k'. rewrite written_app, !member_set_member. simpl.
  case_decide; [done|]. intros [Hk'|Hk']%elem_of_app; [by apply Hmem|].
  by apply list_elem_of_singleton in Hk'.
Qed.

Lemma lockstep_case_body (k : field) : lockstep (case_body h k).
Proof.
  apply lockstep_bind; [apply lockstep_strtok|]. intros p.
  apply lockstep_bind; [apply lockstep_printf|]. intros _. apply lockstep_memcpy.
Qed.

Lemma lockstep_switch (v : Z) : lockstep (switch h v).
Proof.
  unfold switch.
  repeat (destruct (_ =? _); [apply lockstep_case_body|]). apply lockstep_ret.
Qed.

Lemma lockstep_tokenize (pline : ptr) : lockstep (tokenize h pline).
Proof.
  apply lockstep_bind; [apply lockstep_strtok|]. intros [i|]; [|apply lockstep_ret].
  apply lockstep_bind; [apply lockstep_read_string|]. intros key. apply lockstep_switch.
Qed.

Lemma lockstep_while (fuel : nat) : lockstep (while_not_feof h fuel).
Proof.
  induction fuel as [|fuel IH]; [by intros s1 s2 Hs|].
  intros s1 s2 Hs. simpl. revert s1 s2 Hs.
  apply lockstep_bind; [apply lockstep_feof|]. intros [|]; [apply lockstep_ret|].
  apply lockstep_bind; [|done].
  apply lockstep_bind; [apply lockstep_fgets|]. apply lockstep_tokenize.
Qed.

End Lockstep.

Lemma load_config_t_unfold (h : header) (fs : file_system) (path : string)
    (heap : config_t) :
  load_config_t h fs path heap
  = match (while_not_feof h (fuel_for (initial_state h fs path heap)) ;;; fclose)
            (emit (Printf banner) (initial_state h fs path heap)) with
    | Ok _ s => Ok (c_obj s) s
    | Undefined u s => Undefined u s
    | OutOfFuel s => OutOfFuel s
    end.
Proof.
  unfold load_config_t. unfold bind at 1. unfold printf0, modify. fold banner.
  unfold bind. destruct (while_not_feof _ _ _) as [[] s| |]; [|done..].
  by destruct (fclose s) as [[] s'| |].
Qed.

(** X12. The loader never reads the record it fills. Run on the same file
    with different contents of the storage [malloc] returns, it makes the
    same calls with the same arguments and results, prints the same, ends
    the same way, and the members it has written are the same in both
    records: the storage shows in the members that are not written only. *)
Theorem load_ignores_storage (h : header) (fs : file_system) (path : string)
    (heap1 heap2 : config_t) :
  match load_config_t h fs path heap1, load_config_t h fs path heap2 with
  | Ok c1 s1, Ok c2 s2 =>
      events s1 = events s2 /\
      forall k, k ∈ written (events s1) -> member k c1 = member k c2
  | Undefined u1 s1, Undefined u2 s2 => u1 = u2 /\ events s1 = events s2
  | OutOfFuel _, OutOfFuel _ => True
  | _, _ => False
  end.
Proof.
  rewrite !load_config_t_unfold.
  set (s1 := initial_state h fs path heap1). set (s2 := initial_state h fs path heap2).
  assert (fuel_for s1 = fuel_for s2) as -> by done.
  assert (alike (emit (Printf banner) s1) (emit (Printf banner) s2)) as Hs.
  { unfold alike. simpl. repeat split; try done. intros k Hk. by apply elem_of_nil in Hk. }
  pose proof (lockstep_bind (while_not_feof h (fuel_for s2)) (fun _ => fclose)
                (lockstep_while h _) (fun _ => lockstep_fclose) _ _ Hs) as Hrun.
  destruct ((while_not_feof h (fuel_for s2) ;;; fclose) (emit (Printf banner) s1))
    as [[] t1|u1 t1|t1],
    ((while_not_feof h (fuel_for s2) ;;; fclose) (emit (Printf banner) s2))
    as [[] t2|u2 t2|t2]; try done.
  - destruct Hrun as (_ & _ & _ & _ & Hev & Hmem). by split.
  - destruct Hrun as (-> & _ & _ & _ & Hev & _). by split.
Qed.

(** ** The further properties at concrete files *)

Lemma tight_header_ok : header_ok tight_header.
Proof.
  split; simpl.
  - intros k1 k2. destruct k1, k2; simpl; first [done|lia].
  - intros k. destruct k; simpl; lia.
  - lia.
  - lia.
Qed.

Lemma loop_body_writes_once_witness :
  exists s',
    loop_body example_header example_start = Ok tt s' /\
    (c_obj s' = c_obj example_start \/
     exists k v, c_obj s' = set_member k v (c_obj example_start)).
Proof.
  eexists. split; [vm_compute; reflexivity|].
  apply (loop_body_writes_once example_header). vm_compute. reflexivity.
Defined.

Lemma load_record_matches_output_witness :
  exists c s,
    load_config_t example_header (one_file example_config) "entity.config" stale
    = Ok c s /\
    exists ws, agrees example_header stale ws c (events s).
Proof.
  eexists _, _. split; [vm_compute; reflexivity|].
  apply (load_record_matches_output example_header (one_file example_config)
           "entity.config").
  vm_compute. reflexivity.
Defined.

Lemma load_reads_whole_file_witness :
  exists c s,
    load_config_t example_header (one_file example_config) "entity.config" stale
    = Ok c s /\
    exists f, fp s = Some f /\ unread f = [] /\ eof_indicator f = true.
Proof.
  eexists _, _. split; [vm_compute; reflexivity|].
  eapply (load_reads_whole_file example_header (one_file example_config)
            "entity.config" stale).
  vm_compute. reflexivity.
Defined.

Lemma load_faults_witness :
  match load_config_t example_header (one_file (lit "entityInfo.name="))
          "entity.config" stale with
  | Ok _ _ => True
  | Undefined u s => fault example_header u s
  | OutOfFuel _ => False
  end.
Proof.
  apply (load_faults example_header (one_file (lit "entityInfo.name=")) "entity.config"
           stale (lit "entityInfo.name=")).
  - vm_compute. lia.
  - vm_compute. reflexivity.
  - discriminate.
Defined.



Lemma load_key_name_at_eof_witness :
  exists s,
    load_config_t example_header
      (one_file (render_all [port_line] ++ key_string F_name)) "entity.config" stale
    = Undefined UB_null_string s /\
    last (events s) = Some (Strtok None [SP] None) /\
    members_after example_header [port_line] stale (c_obj s) /\
    printed (events s) = banner :: concat (line_output <$> [port_line]).
Proof.
  apply (load_key_name_at_eof example_header
           (one_file (render_all [port_line] ++ key_string F_name)) "entity.config" stale
           [port_line] F_name).
  - exact example_header_ok.
  - compute_done.
  - vm_compute. lia.
  - vm_compute. reflexivity.
Defined.


Lemma load_over_read_witness :
  exists s,
    load_config_t tight_header
      (one_file (render_all [] ++ key_string F_name ++ EQS :: lit "devA" ++ eol true))
      "entity.config" stale
    = Undefined UB_out_of_bounds s /\
    last (events s) = Some (Printf (progress_line F_name (lit "devA" ++ eol true))) /\
    members_after tight_header [] stale (c_obj s) /\
    printed (events s)
    = banner :: concat (line_output <$> [])
        ++ [progress_line F_name (lit "devA" ++ eol true)].
Proof.
  apply (load_over_read tight_header
           (one_file (render_all [] ++ key_string F_name ++ EQS :: lit "devA" ++ eol true))
           "entity.config" stale [] F_name (lit "devA") true).
  - exact tight_header_ok.
  - compute_done.
  - discriminate.
  - compute_done.
  - compute_done.
  - compute_done.
  - vm_compute. lia.
  - vm_compute. lia.
  - vm_compute. reflexivity.
Defined.

Lemma load_long_line_witness :
  exists c s,
    load_config_t example_header
      (one_file (render_all [port_line] ++ long_remark
                   ++ render_all [Entry (lit "entityInfo.name") (lit "deviceA") [] true]))
      "entity.config" stale = Ok c s /\
    members_after example_header
      ([port_line] ++ [Entry (lit "entityInfo.name") (lit "deviceA") [] true]) stale c /\
    printed (events s)
    = banner
        :: concat (line_output
                     <$> ([port_line]
                            ++ [Entry (lit "entityInfo.name") (lit "deviceA") [] true])).
Proof.
  apply (load_long_line example_header
           (one_file (render_all [port_line] ++ long_remark
                        ++ render_all [Entry (lit "entityInfo.name") (lit "deviceA") [] true]))
           "entity.config" stale [port_line]
           [Entry (lit "entityInfo.name") (lit "deviceA") [] true] long_remark).
  - exact example_header_ok.
  - compute_done.
  - discriminate.
  - compute_done.
  - vm_compute. reflexivity.
  - compute_done.
  - compute_done.
  - compute_done.
  - intros k. destruct k; discriminate.
  - vm_compute. reflexivity.
Defined.

Lemma load_spaced_format_witness :
  exists s,
    load_config_t example_header (one_file (render_all (spaced_line <$> example_pairs)))
      "entity.config" stale = Ok stale s /\
    printed (events s) = [banner].
Proof.
  apply (load_spaced_format example_header
           (one_file (render_all (spaced_line <$> example_pairs))) "entity.config" stale
           example_pairs).
  - exact example_header_ok.
  - discriminate.
  - compute_done.
  - vm_compute. reflexivity.
Defined.

(** These lines make up the example file of the specification, character
    for character. *)
Example spaced_example_file :
  render_all (spaced_line <$> example_pairs)
  = lit "entityInfo.name = deviceA" ++ NL
    :: lit "auth.ip.address = 10.0.0.1" ++ NL
    :: lit "auth.port.number = 9000" ++ NL
    :: lit "network.protocol = TCP" ++ [NL].
Proof. reflexivity. Qed.
